(** * merkledb: bit-packed keys, the proof iterator and the node codec

    A shallow embedding of [x/merkledb]'s [Key] (bit-packed paths over a
    configurable branch factor) and of [proofIterator], and a model of the
    node codec as the specification describes it.

    Conventions of the embedding.
    - Go's [int] is modelled by [Z].  Every integer that occurs is a bit or
      byte count of a buffer that lives in memory, far below [2^63], so the
      64-bit wrap-around never comes into play and is left out.
    - Go's [byte] is modelled by a [Z] in [[0,256)]; left shifts truncate to
      eight bits as in Go.  Go's [/] and [%] truncate towards zero: they are
      [Z.quot] and [Z.rem].
    - A [string] or [[]byte] is a [list Z].  Run-time panics (index or slice
      out of range, negative shift count, [make] with a negative size) are
      the [Panic] outcome. *)

From Stdlib Require Import ZArith Lia Bool List.
From stdpp Require Import base tactics option list gmap.
Import ListNotations.

Local Open Scope Z_scope.

(** ** Outcomes of Go code *)

Inductive outcome (A : Type) : Type :=
| Ret (a : A)
| Panic
| OutOfFuel.
Arguments Ret {A} a.
Arguments Panic {A}.
Arguments OutOfFuel {A}.

Definition bind {A B : Type} (m : outcome A) (f : A -> outcome B) : outcome B :=
  match m with
  | Ret a => f a
  | Panic => Panic
  | OutOfFuel => OutOfFuel
  end.

Notation "'let!' x ':=' m 'in' f" := (bind m (fun x => f))
  (at level 10, x name, m at level 100, f at level 200).

(** ** Bytes, slices and strings *)

Definition len {A : Type} (s : list A) : Z := Z.of_nat (length s).

Definition is_byte (b : Z) : Prop := 0 <= b < 256.

(** [b << s] on a [byte]: the result is cut to eight bits. *)
Definition shl8 (b s : Z) : outcome Z :=
  if s <? 0 then Panic else Ret (Z.shiftl b s mod 256).

(** [b >> s] on a [byte]. *)
Definition shr8 (b s : Z) : outcome Z :=
  if s <? 0 then Panic else Ret (Z.shiftr b s).

(** [s[i]] *)
Definition index (s : list Z) (i : Z) : outcome Z :=
  if (i <? 0) || (len s <=? i) then Panic else Ret (nth (Z.to_nat i) s 0).

(** [s[i] = v] *)
Definition store (s : list Z) (i v : Z) : outcome (list Z) :=
  if (i <? 0) || (len s <=? i) then Panic else Ret (<[Z.to_nat i := v]> s).

(** [s[lo:]] *)
Definition slice_from (s : list Z) (lo : Z) : outcome (list Z) :=
  if (lo <? 0) || (len s <? lo) then Panic else Ret (drop (Z.to_nat lo) s).

(** [s[:hi]] *)
Definition slice_to (s : list Z) (hi : Z) : outcome (list Z) :=
  if (hi <? 0) || (len s <? hi) then Panic else Ret (take (Z.to_nat hi) s).

(** [make([]byte, n)] *)
Definition make (n : Z) : outcome (list Z) :=
  if n <? 0 then Panic else Ret (replicate (Z.to_nat n) 0).

(** [copy(dst, src)]: the new contents of [dst]; [min(len(dst), len(src))]
    bytes are copied. *)
Definition copy (dst src : list Z) : list Z :=
  take (length dst) src ++ drop (length src) dst.

Fixpoint bytes_eqb (a b : list Z) : bool :=
  match a, b with
  | [], [] => true
  | x :: a', y :: b' => (x =? y) && bytes_eqb a' b'
  | _, _ => false
  end.

(** [strings.HasPrefix(s, prefix)] *)
Fixpoint strings_HasPrefix (s prefix : list Z) {struct prefix} : bool :=
  match prefix, s with
  | [], _ => true
  | p :: prefix', x :: s' => (x =? p) && strings_HasPrefix s' prefix'
  | _ :: _, [] => false
  end.

(** Go's comparison of strings: bytewise lexicographic. *)
Fixpoint strings_Compare (a b : list Z) : comparison :=
  match a, b with
  | [], [] => Eq
  | [], _ :: _ => Lt
  | _ :: _, [] => Gt
  | x :: a', y :: b' =>
      match x ?= y with
      | Eq => strings_Compare a' b'
      | c => c
      end
  end.

(** ** Tokens and keys *)

(** [type BranchFactor int] with its four constants. *)
Definition BranchFactor : Type := Z.
Definition BranchFactor2 : BranchFactor := 2.
Definition BranchFactor4 : BranchFactor := 4.
Definition BranchFactor16 : BranchFactor := 16.
Definition BranchFactor256 : BranchFactor := 256.

Inductive error : Type :=
| ErrInvalidTokenConfig.

(** [BranchFactor.Valid]: [None] is the nil error. *)
Definition BranchFactor_Valid (bf : BranchFactor) : option error :=
  if (bf =? BranchFactor2) || (bf =? BranchFactor4)
     || (bf =? BranchFactor16) || (bf =? BranchFactor256)
  then None else Some ErrInvalidTokenConfig.

Definition BitsPerToken (bf : BranchFactor) : Z :=
  if bf =? BranchFactor2 then 1
  else if bf =? BranchFactor4 then 2
  else if bf =? BranchFactor16 then 4
  else if bf =? BranchFactor256 then 8
  else -1.

Record Token : Type := mkToken { token_length : Z; token_value : Z }.

Definition NewToken (val : Z) (branchFactor : BranchFactor) : Token :=
  {| token_value := val; token_length := BitsPerToken branchFactor |}.

Record Key : Type := mkKey { key_length : Z; key_value : list Z }.

(** [Key{}] *)
Definition emptyKey : Key := {| key_length := 0; key_value := [] |}.

Definition toKey (keyBytes : list Z) : Key :=
  {| key_value := keyBytes; key_length := len keyBytes * 8 |}.

Definition ToKey (keyBytes : list Z) : Key := toKey keyBytes.

Definition Key_eqb (a b : Key) : bool :=
  (key_length a =? key_length b) && bytes_eqb (key_value a) (key_value b).

Definition remainderBitCount (k : Key) : Z := Z.rem (key_length k) 8.

Definition hasPartialByte (k : Key) : bool := 0 <? Z.rem (key_length k) 8.

Definition Length (k : Key) : Z := key_length k.

Definition dualBitIndex (shift : Z) : Z := Z.rem (8 - shift) 8.

Definition bytesNeeded (bits : Z) : Z :=
  let size := Z.quot bits 8 in
  if negb (Z.rem bits 8 =? 0) then size + 1 else size.

Definition HasPrefix (k prefix : Key) : outcome bool :=
  if key_length k <? key_length prefix then Ret false else
  let remainderBitCount := remainderBitCount prefix in
  if remainderBitCount =? 0 then
    Ret (strings_HasPrefix (key_value k) (key_value prefix))
  else
    let! remainderBitsMask := shr8 255 remainderBitCount in
    let! prefixLast := index (key_value prefix) (len (key_value prefix) - 1) in
    let prefixRemainderTokens := Z.lor prefixLast remainderBitsMask in
    let! kByte := index (key_value k) (len (key_value prefix) - 1) in
    let remainderTokens := Z.lor kByte remainderBitsMask in
    if negb (prefixRemainderTokens =? remainderTokens) then Ret false else
    let! prefixWithoutPartialByte :=
      slice_to (key_value prefix) (len (key_value prefix) - 1) in
    Ret (strings_HasPrefix (key_value k) prefixWithoutPartialByte).

Definition HasStrictPrefix (k prefix : Key) : outcome bool :=
  if negb (Key_eqb k prefix) then HasPrefix k prefix else Ret false.

(** [Key.Token] *)
Definition Key_Token (k : Key) (bitIndex tokenBitSize : Z) : outcome Z :=
  let! storageByte := index (key_value k) (Z.quot bitIndex 8) in
  let! storageByte :=
    shr8 storageByte (dualBitIndex (Z.rem (bitIndex + tokenBitSize) 8)) in
  let! mask := shr8 255 (dualBitIndex tokenBitSize) in
  Ret (Z.land storageByte mask).

(** [appendIntoBuffer] writes into the slice it is given; the embedding
    returns the new contents of that slice. *)
Definition appendIntoBuffer (k : Key) (buffer : list Z) (token : Token)
  : outcome (list Z) :=
  let buffer := copy buffer (key_value k) in
  let! last := index buffer (len buffer - 1) in
  let! shifted :=
    shl8 (token_value token)
         (dualBitIndex (Z.rem (key_length k + token_length token) 8)) in
  store buffer (len buffer - 1) (Z.lor last shifted).

Definition Append (k : Key) (token : Token) : outcome Key :=
  let! buffer := make (bytesNeeded (key_length k + token_length token)) in
  let! buffer := appendIntoBuffer k buffer token in
  Ret {| key_value := buffer;
         key_length := key_length k + token_length token |}.

Definition Greater (k other : Key) : bool :=
  match strings_Compare (key_value k) (key_value other) with
  | Gt => true
  | Eq => key_length other <? key_length k
  | Lt => false
  end.

Definition Less (k other : Key) : bool :=
  match strings_Compare (key_value k) (key_value other) with
  | Lt => true
  | Eq => key_length k <? key_length other
  | Gt => false
  end.

(** The loop of [shiftCopy]: [n] iterations are left, [i] is the loop
    counter.  Returns the counter and the contents of [dst] at exit. *)
Fixpoint shiftCopy_loop (n : nat) (i : Z) (dst src : list Z)
    (shift dualShift : Z) : outcome (Z * list Z) :=
  match n with
  | O => Ret (i, dst)
  | S n' =>
      let! a := index src i in
      let! hi := shl8 a shift in
      let! b := index src (i + 1) in
      let! lo := shr8 b dualShift in
      let! dst := store dst i (Z.lor hi lo) in
      shiftCopy_loop n' (i + 1) dst src shift dualShift
  end.

(** [shiftCopy(dst, src, shift)]: the new contents of [dst].  The loop
    [for ; i < len(src)-1; i++] runs [len(src)-1] times (not at all when that
    is negative). *)
Definition shiftCopy (dst src : list Z) (shift : Z) : outcome (list Z) :=
  let dualShift := dualBitIndex shift in
  let! r := shiftCopy_loop (Z.to_nat (len src - 1)) 0 dst src shift dualShift in
  let '(i, dst) := r in
  if i <? len dst then
    let! a := index src i in
    let! hi := shl8 a shift in
    store dst i hi
  else Ret dst.

(** [result.value] aliases [buffer], so the writes made to [buffer] after
    [result] is built are seen through it: the embedding builds the key from
    the final contents.  [buffer[:appendBytes]] and [buffer[appendBytes-1:]]
    are views of [buffer]; writes to them are spliced back. *)
Definition AppendExtend (k : Key) (token : Token) (extensionKey : Key)
  : outcome Key :=
  let appendBytes := bytesNeeded (key_length k + token_length token) in
  let totalBitLength :=
    key_length k + token_length token + key_length extensionKey in
  let! buffer := make (bytesNeeded totalBitLength) in
  let! head := slice_to buffer appendBytes in
  let! head := appendIntoBuffer k head token in
  let buffer := head ++ drop (Z.to_nat appendBytes) buffer in
  let bitsRemainder := Z.rem (key_length k + token_length token) 8 in
  let! extensionBuffer := slice_from buffer (appendBytes - 1) in
  let before := take (Z.to_nat (appendBytes - 1)) buffer in
  if key_length extensionKey =? 0 then
    Ret {| key_value := buffer; key_length := totalBitLength |}
  else if bitsRemainder =? 0 then
    let! tail := slice_from extensionBuffer 1 in
    let tail := copy tail (key_value extensionKey) in
    Ret {| key_value := before ++ take 1 extensionBuffer ++ tail;
           key_length := totalBitLength |}
  else
    let! e0 := index (key_value extensionKey) 0 in
    let! e0s := shr8 e0 bitsRemainder in
    let! b0 := index extensionBuffer 0 in
    let! extensionBuffer := store extensionBuffer 0 (Z.lor b0 e0s) in
    let! tail := slice_from extensionBuffer 1 in
    let! tail :=
      shiftCopy tail (key_value extensionKey) (dualBitIndex bitsRemainder) in
    Ret {| key_value := before ++ take 1 extensionBuffer ++ tail;
           key_length := totalBitLength |}.

Definition Skip (k : Key) (bitsToSkip : Z) : outcome Key :=
  if key_length k <=? bitsToSkip then Ret emptyKey else
  let! rest := slice_from (key_value k) (Z.quot bitsToSkip 8) in
  let resultLength := key_length k - bitsToSkip in
  if Z.rem bitsToSkip 8 =? 0 then
    Ret {| key_value := rest; key_length := resultLength |}
  else
    let! buffer := make (bytesNeeded resultLength) in
    let bitsRemovedFromFirstRemainingByte := Z.rem bitsToSkip 8 in
    let! buffer := shiftCopy buffer rest bitsRemovedFromFirstRemainingByte in
    Ret {| key_value := buffer; key_length := resultLength |}.

Definition Take (k : Key) (bitsToTake : Z) : outcome Key :=
  if key_length k <=? bitsToTake then Ret k else
  let remainderBits := Z.rem bitsToTake 8 in
  if remainderBits =? 0 then
    let! v := slice_to (key_value k) (Z.quot bitsToTake 8) in
    Ret {| key_value := v; key_length := bitsToTake |}
  else
    let! buffer := make (bytesNeeded bitsToTake) in
    let buffer := copy buffer (key_value k) in
    let! last := index buffer (len buffer - 1) in
    let! mask := shl8 255 (dualBitIndex remainderBits) in
    let! buffer := store buffer (len buffer - 1) (Z.land last mask) in
    Ret {| key_value := buffer; key_length := bitsToTake |}.

Definition Bytes (k : Key) : list Z := key_value k.

(** The loop of [iteratedHasPrefix]; [fuel] bounds the number of
    iterations, [i] is the loop counter. *)
Fixpoint iteratedHasPrefix_loop (fuel : nat) (k prefix : Key)
    (bitsToSkip tokenBitSize i : Z) : outcome bool :=
  if i <? key_length prefix then
    match fuel with
    | O => OutOfFuel
    | S fuel' =>
        let! a := Key_Token k (bitsToSkip + i) tokenBitSize in
        let! b := Key_Token prefix i tokenBitSize in
        if negb (a =? b) then Ret false
        else iteratedHasPrefix_loop fuel' k prefix bitsToSkip tokenBitSize
               (i + tokenBitSize)
    end
  else Ret true.

(** With [tokenBitSize >= 1] the loop runs at most [prefix.length] times,
    which is the fuel given; with [tokenBitSize <= 0] the Go loop need not
    terminate and the embedding may answer [OutOfFuel]. *)
Definition iteratedHasPrefix (k prefix : Key) (bitsToSkip tokenBitSize : Z)
  : outcome bool :=
  if key_length k - bitsToSkip <? key_length prefix then Ret false else
  iteratedHasPrefix_loop (Z.to_nat (key_length prefix)) k prefix
    bitsToSkip tokenBitSize 0.

(** ** The bit view of keys *)

(** Bit [i] of a byte string; bit 0 is the most significant bit of byte 0. *)
Definition bitAt (s : list Z) (i : Z) : bool :=
  Z.testbit (nth (Z.to_nat (i / 8)) s 0) (7 - i mod 8).

(** The bit sequence a key stands for: its first [key_length] bits. *)
Definition bits (k : Key) : list bool :=
  bitAt (key_value k) <$> seqZ 0 (key_length k).

(** The bits of a token, most significant first. *)
Definition token_bits (t : Token) : list bool :=
  (fun j => Z.testbit (token_value t) (token_length t - 1 - j))
    <$> seqZ 0 (token_length t).

Definition valid_token (t : Token) : Prop :=
  (token_length t = 1 \/ token_length t = 2 \/ token_length t = 4
   \/ token_length t = 8)
  /\ 0 <= token_value t < 2 ^ token_length t.

(** The representation invariant of [Key]. *)
Definition wf (k : Key) : Prop :=
  0 <= key_length k
  /\ len (key_value k) = bytesNeeded (key_length k)
  /\ Forall is_byte (key_value k)
  /\ forall i, key_length k <= i -> bitAt (key_value k) i = false.


(** ** The proof iterator *)

(** Modelled from the spec: the [path] type of [proof_iterator.go] is not
    among the sources.  The iterator indexes a path by token position
    ([nextPath[len(myPath)]] is a child index), appends one token to it and
    compares paths; following the specification a path is the sequence of
    its tokens, ordered lexicographically with a proper prefix smaller. *)
Definition path : Type := list Z.

Definition EmptyPath : path := [].

(** [p.Compare(other)]: negative, zero or positive. *)
Definition path_Compare (p other : path) : Z :=
  match strings_Compare p other with
  | Lt => -1
  | Eq => 0
  | Gt => 1
  end.

(** [p.Append(token)] *)
Definition path_Append (p : path) (token : Z) : path := p ++ [token].

(** Conversion of an [int] to [byte]. *)
Definition to_byte (z : Z) : Z := z mod 256.

Section ProofIterator.

(** The digest type [ids.ID] with its zero value [ids.Empty], and the
    constant [NodeBranchFactor], are declared outside the sources: they
    are parameters.  [NodeBranchFactor] is compared with a [byte], so it
    is at most 255. *)
Variable ID : Type.
Variable ids_Empty : ID.
Variable NodeBranchFactor : Z.

(** Modelled from the spec: [ProofNode] is a snapshot of a node: its path
    and its children map from token to child digest.  [KeyPath] holds the
    path that [KeyPath.deserialize()] returns. *)
Record ProofNode : Type := mkProofNode {
  KeyPath : path;
  Children : gmap Z ID
}.

Record proofIterator : Type := mkProofIterator {
  key : path;
  value : ID;
  exhausted : bool;
  nodeIndex : Z;
  nextChildIndex : gmap Z Z;
  proof : list ProofNode;
  nodeToPath : gmap Z path;
  nodeToBranchIndex : gmap Z Z;
  nodeToID : gmap Z ID
}.

(** Reading a Go map yields the zero value for a missing key. *)
Definition getPath (m : gmap Z path) (i : Z) : path := default EmptyPath (m !! i).
Definition getIndex (m : gmap Z Z) (i : Z) : Z := default 0 (m !! i).
Definition getID (m : gmap Z ID) (i : Z) : ID := default ids_Empty (m !! i).

(** [proof[i]] *)
Definition proofAt (proof : list ProofNode) (i : Z) : outcome ProofNode :=
  if (i <? 0) || (len proof <=? i) then Panic
  else match proof !! Z.to_nat i with
       | Some n => Ret n
       | None => Panic
       end.

(** First loop of [newProofIterator]: [nodeToPath]. *)
Fixpoint populatePaths (nodes : list ProofNode) (i : Z) (m : gmap Z path)
  : gmap Z path :=
  match nodes with
  | [] => m
  | node :: rest => populatePaths rest (i + 1) (<[i := KeyPath node]> m)
  end.

(** Second loop of [newProofIterator], [n] iterations from [i]:
    [nodeToBranchIndex] and [nodeToID]. *)
Fixpoint populateBranches (n : nat) (i : Z) (proof : list ProofNode)
    (paths : gmap Z path) (branch : gmap Z Z) (idsOf : gmap Z ID)
  : outcome (gmap Z Z * gmap Z ID) :=
  match n with
  | O => Ret (branch, idsOf)
  | S n' =>
      let myPath := getPath paths i in
      let nextPath := getPath paths (i + 1) in
      let! childIndex := index nextPath (len myPath) in
      let! node := proofAt proof i in
      populateBranches n' (i + 1) proof paths
        (<[i := childIndex]> branch)
        (<[i + 1 := getID (Children node) childIndex]> idsOf)
  end.

(** The scan of the children of node [i], [n] iterations from [childIdx].
    [Some iter] when the constructor returns [iter] from inside the loop,
    [None] when the loop runs to its end. *)
Fixpoint scanChildren (n : nat) (childIdx : Z) (iter : proofIterator)
    (i : Z) (node : ProofNode) (nodePath start : path)
  : option proofIterator :=
  match n with
  | O => None
  | S n' =>
      match Children node !! childIdx with
      | None => scanChildren n' (childIdx + 1) iter i node nodePath start
      | Some _ =>
          let childIsNode :=
            negb (i =? len (proof iter) - 1)
            && (getIndex (nodeToBranchIndex iter) i =? childIdx) in
          let childKey :=
            if childIsNode then getPath (nodeToPath iter) (i + 1)
            else path_Append nodePath childIdx in
          if path_Compare start childKey <=? 0 then
            if childIsNode then
              Some (mkProofIterator (key iter) (value iter) (exhausted iter)
                      (nodeIndex iter + 1)
                      (<[i := childIdx + 1]> (nextChildIndex iter))
                      (proof iter) (nodeToPath iter)
                      (nodeToBranchIndex iter) (nodeToID iter))
            else
              Some (mkProofIterator (key iter) (value iter) (exhausted iter)
                      (nodeIndex iter)
                      (<[i := childIdx]> (nextChildIndex iter))
                      (proof iter) (nodeToPath iter)
                      (nodeToBranchIndex iter) (nodeToID iter))
          else scanChildren n' (childIdx + 1) iter i node nodePath start
      end
  end.

(** Third loop of [newProofIterator] over the nodes that are left, from
    index [i]: find the first key to return. *)
Fixpoint findFirst (nodes : list ProofNode) (i : Z) (iter : proofIterator)
    (start : path) : proofIterator :=
  match nodes with
  | [] =>
      mkProofIterator (key iter) (value iter) true (nodeIndex iter)
        (nextChildIndex iter) (proof iter) (nodeToPath iter)
        (nodeToBranchIndex iter) (nodeToID iter)
  | node :: rest =>
      let iter :=
        mkProofIterator (key iter) (value iter) (exhausted iter) i
          (nextChildIndex iter) (proof iter) (nodeToPath iter)
          (nodeToBranchIndex iter) (nodeToID iter) in
      let nodePath := getPath (nodeToPath iter) i in
      if path_Compare start nodePath <=? 0 then iter
      else
        match scanChildren (Z.to_nat NodeBranchFactor) 0 iter i node
                nodePath start with
        | Some iter' => iter'
        | None =>
            findFirst rest (i + 1)
              (mkProofIterator (key iter) (value iter) (exhausted iter)
                 (nodeIndex iter)
                 (<[i := NodeBranchFactor]> (nextChildIndex iter))
                 (proof iter) (nodeToPath iter)
                 (nodeToBranchIndex iter) (nodeToID iter))
              start
        end
  end.

Definition newProofIterator (proof : list ProofNode) (start : path)
  : outcome proofIterator :=
  let paths := populatePaths proof 0 ∅ in
  let! r := populateBranches (Z.to_nat (len proof - 1)) 0 proof paths ∅ ∅ in
  let '(branch, idsOf) := r in
  Ret (findFirst proof 0
         (mkProofIterator EmptyPath ids_Empty false 0 ∅ proof paths
            branch idsOf)
         start).

(** The loop [for j := childIdx + 1; j <= NodeBranchFactor; j++] of
    [Next], [n] iterations from [j]: the first [j] that is a child, or
    the initial zero of [nextChildIndex] when there is none. *)
Fixpoint findNextChild (n : nat) (j : Z) (node : ProofNode) : Z :=
  match n with
  | O => 0
  | S n' =>
      match Children node !! to_byte j with
      | Some _ => j
      | None => findNextChild n' (j + 1) node
      end
  end.

Definition Next (i : proofIterator) : outcome (bool * proofIterator) :=
  if exhausted i then
    Ret (false,
         mkProofIterator EmptyPath ids_Empty (exhausted i) (nodeIndex i)
           (nextChildIndex i) (proof i) (nodeToPath i)
           (nodeToBranchIndex i) (nodeToID i))
  else
    let! node := proofAt (proof i) (nodeIndex i) in
    let childIdx := getIndex (nextChildIndex i) (nodeIndex i) in
    let visitedNode := bool_decide (is_Some (nextChildIndex i !! nodeIndex i)) in
    let key' :=
      if negb visitedNode then getPath (nodeToPath i) (nodeIndex i)
      else path_Append (getPath (nodeToPath i) (nodeIndex i)) (to_byte childIdx) in
    let value' :=
      if negb visitedNode then getID (nodeToID i) (nodeIndex i)
      else getID (Children node) (to_byte childIdx) in
    let childIdx := if visitedNode then -1 else childIdx in
    let nextChild :=
      findNextChild (Z.to_nat (NodeBranchFactor - childIdx)) (childIdx + 1) node in
    let nextChildIndex' := <[nodeIndex i := nextChild]> (nextChildIndex i) in
    let! descended :=
      if negb (nodeIndex i =? len (proof i) - 1)
         && (getIndex (nodeToBranchIndex i) (nodeIndex i) =? to_byte childIdx)
      then
        let! next := proofAt (proof i) (nodeIndex i + 1) in
        Ret (0 <? Z.of_nat (size (Children next)))
      else Ret false in
    let nodeIndex' := if descended then nodeIndex i + 1 else nodeIndex i in
    if negb descended && (nextChild =? NodeBranchFactor) then
      if nodeIndex' =? 0 then
        Ret (true,
             mkProofIterator key' value' true nodeIndex' nextChildIndex'
               (proof i) (nodeToPath i) (nodeToBranchIndex i) (nodeToID i))
      else
        Ret (true,
             mkProofIterator key' value' (exhausted i) (nodeIndex' - 1)
               nextChildIndex' (proof i) (nodeToPath i)
               (nodeToBranchIndex i) (nodeToID i))
    else
      Ret (true,
           mkProofIterator key' value' (exhausted i) nodeIndex'
             nextChildIndex' (proof i) (nodeToPath i)
             (nodeToBranchIndex i) (nodeToID i)).

Definition proofIterator_Key (i : proofIterator) : path := key i.
Definition proofIterator_Value (i : proofIterator) : ID := value i.

(** The key/ID pairs the first [n] calls of [Next] return, up to the first
    call that returns false. *)
Fixpoint emitted (n : nat) (i : proofIterator) : outcome (list (path * ID)) :=
  match n with
  | O => Ret []
  | S n' =>
      let! r := Next i in
      let '(more, i') := r in
      if more then
        let! rest := emitted n' i' in
        Ret ((key i', value i') :: rest)
      else Ret []
  end.

(** The key prefixes a proof establishes: the path of every node, and
    for every child of a node that is not the next node of the proof, the
    node's path with the child's token appended. *)
Fixpoint provablePrefixes (nodes : list ProofNode) : list path :=
  match nodes with
  | [] => []
  | node :: rest =>
      let isLeaf (c : Z) :=
        match rest with
        | next :: _ =>
            negb (nth (length (KeyPath node)) (KeyPath next) (-1) =? c)
        | [] => true
        end in
      KeyPath node
      :: (path_Append (KeyPath node)
            <$> List.filter isLeaf (map_to_list (Children node)).*1)
      ++ provablePrefixes rest
  end.

End ProofIterator.

(** *** Two small proofs, with digests written as numbers

    A trie with branch factor 16 whose root has the children 0 and 1, and
    whose node at path [[0]] has the child 5.  [[rootNode]] is the proof of
    the absence of a key under an absent child of the root; [[rootNode;
    innerNode]] is the proof of a key below [[0]]. *)

Definition rootNode : ProofNode Z :=
  mkProofNode Z [] (<[0 := 11]> (<[1 := 22]> ∅)).

Definition innerNode : ProofNode Z :=
  mkProofNode Z [0] (<[5 := 33]> ∅).

(** The states of the iterator over the whole keyspace of [[rootNode]]: as
    built, and after one, two and three calls of [Next]; the last one is
    the state of every later call. *)
Definition rootIterator0 : proofIterator Z :=
  mkProofIterator Z [] 0 false 0 ∅ [rootNode] (<[0 := []]> ∅) ∅ ∅.

Definition rootIterator1 : proofIterator Z :=
  mkProofIterator Z [] 0 false 0 (<[0 := 1]> ∅) [rootNode]
    (<[0 := []]> ∅) ∅ ∅.

Definition rootIterator2 : proofIterator Z :=
  mkProofIterator Z [1] 22 false 0 (<[0 := 0]> ∅) [rootNode]
    (<[0 := []]> ∅) ∅ ∅.

Definition stuckIterator : proofIterator Z :=
  mkProofIterator Z [0] 11 false 0 (<[0 := 0]> ∅) [rootNode]
    (<[0 := []]> ∅) ∅ ∅.

(** ** The node codec *)

(** Modelled from the spec: [parseNode] and the serialization [bytes()] of a
    node are not among the sources (only [node_test.go], which calls them,
    is).  The specification describes the encoding as: a value presence
    flag and the value bytes, the child count, then per child the token
    index, the compressed suffix and the child digest; every field read is
    bounds-checked and running out of bytes is the truncation error.  The
    specification leaves the encoding of integers open ("self-describing",
    "length-delimited"): the base-128 variable-length encoding of Go's
    [encoding/binary] is taken, without its 64-bit overflow check, and a
    byte string is preceded by its length. *)

Definition HashLength : Z := 32.

Inductive parseError : Type :=
| EncodingTruncated
| EncodingInvalid.

Inductive parsed (A : Type) : Type :=
| Parsed (a : A) (rest : list Z)
| Failed (e : parseError).
Arguments Parsed {A} a rest.
Arguments Failed {A} e.

Definition pbind {A B : Type} (m : parsed A) (f : A -> list Z -> parsed B)
  : parsed B :=
  match m with
  | Parsed a rest => f a rest
  | Failed e => Failed e
  end.

Record childEntry : Type := mkChild {
  child_index : Z;
  child_compressedKey : Key;
  child_id : list Z
}.

Record dbNode : Type := mkNode {
  node_key : Key;
  node_value : option (list Z);
  node_children : list childEntry
}.

(** Modelled from the spec: encoders. *)
Fixpoint encodeUint_fuel (fuel : nat) (n : Z) : list Z :=
  match fuel with
  | O => [n]
  | S fuel' =>
      if n <? 128 then [n]
      else (n mod 128 + 128) :: encodeUint_fuel fuel' (n / 128)
  end.

Definition encodeUint (n : Z) : list Z := encodeUint_fuel (Z.to_nat n) n.

Definition encodeMaybeByteSlice (v : option (list Z)) : list Z :=
  match v with
  | None => [0]
  | Some bs => [1] ++ encodeUint (len bs) ++ bs
  end.

Definition encodeKey (k : Key) : list Z :=
  encodeUint (key_length k) ++ key_value k.

Definition encodeChild (c : childEntry) : list Z :=
  encodeUint (child_index c) ++ encodeKey (child_compressedKey c) ++ child_id c.

Definition serialize (n : dbNode) : list Z :=
  encodeMaybeByteSlice (node_value n)
  ++ encodeUint (len (node_children n))
  ++ concat (encodeChild <$> node_children n).

(** Modelled from the spec: bounds-checked field readers. *)
Definition readByte (b : list Z) : parsed Z :=
  match b with
  | [] => Failed EncodingTruncated
  | x :: rest => Parsed x rest
  end.

Definition readBytes (n : Z) (b : list Z) : parsed (list Z) :=
  if len b <? n then Failed EncodingTruncated
  else Parsed (take (Z.to_nat n) b) (drop (Z.to_nat n) b).

Fixpoint decodeUint (b : list Z) : parsed Z :=
  match b with
  | [] => Failed EncodingTruncated
  | x :: rest =>
      if x <? 128 then Parsed x rest
      else pbind (decodeUint rest)
             (fun v rest' => Parsed (x - 128 + 128 * v) rest')
  end.

Definition decodeMaybeByteSlice (b : list Z) : parsed (option (list Z)) :=
  pbind (readByte b) (fun flag b =>
    if flag =? 0 then Parsed None b
    else if flag =? 1 then
      pbind (decodeUint b) (fun n b =>
      pbind (readBytes n b) (fun bs b => Parsed (Some bs) b))
    else Failed EncodingInvalid).

Definition decodeKey (b : list Z) : parsed Key :=
  pbind (decodeUint b) (fun bitLength b =>
  pbind (readBytes (bytesNeeded bitLength) b) (fun bs b =>
    Parsed {| key_length := bitLength; key_value := bs |} b)).

Definition decodeChild (b : list Z) : parsed childEntry :=
  pbind (decodeUint b) (fun idx b =>
  pbind (decodeKey b) (fun k b =>
  pbind (readBytes HashLength b) (fun id b =>
    Parsed (mkChild idx k id) b))).

Fixpoint decodeChildren (n : nat) (b : list Z) : parsed (list childEntry) :=
  match n with
  | O => Parsed [] b
  | S n' =>
      pbind (decodeChild b) (fun c b =>
      pbind (decodeChildren n' b) (fun cs b => Parsed (c :: cs) b))
  end.

Definition decodeDBNode (key : Key) (b : list Z) : parsed dbNode :=
  pbind (decodeMaybeByteSlice b) (fun v b =>
  pbind (decodeUint b) (fun n b =>
  pbind (decodeChildren (Z.to_nat n) b) (fun cs b =>
    Parsed (mkNode key v cs) b))).

(** [parseNode(key, b)]: the node, or the error. *)
Definition parseNode (key : Key) (b : list Z) : dbNode + parseError :=
  match decodeDBNode key b with
  | Parsed n _ => inl n
  | Failed e => inr e
  end.

(** The nodes that [serialize] encodes faithfully: non-negative child
    indices, compressed keys whose buffer has the length their bit length
    asks for, digests of [HashLength] bytes. *)
Definition valid_child (c : childEntry) : Prop :=
  0 <= child_index c
  /\ 0 <= key_length (child_compressedKey c)
  /\ len (key_value (child_compressedKey c))
     = bytesNeeded (key_length (child_compressedKey c))
  /\ len (child_id c) = HashLength.

Definition valid_node (n : dbNode) : Prop := Forall valid_child (node_children n).

(** A reader [R] reads [x] from the encoding [e]: it returns [x] and what
    follows [e], and fails with the truncation error on every proper prefix
    of [e]. *)
Definition reads {A : Type} (R : list Z -> parsed A) (e : list Z) (x : A) : Prop :=
  (forall rest, R (e ++ rest) = Parsed x rest)
  /\ (forall i, (i < length e)%nat -> R (take i e) = Failed EncodingTruncated).

(** The node of [Test_Node_Marshal_Errors]: a root with the two children
    [0xED] and [0xFF] under branch factor 16; the digests are placeholders. *)
Definition testRoot : dbNode :=
  mkNode emptyKey None
    [ mkChild 14 {| key_length := 4; key_value := [208] |} (replicate 32 7);
      mkChild 15 {| key_length := 4; key_value := [240] |} (replicate 32 9) ].

(** ** Auxiliary definitions of the proofs *)

(** Byte [q] of [src] shifted left by [shift] bits. *)
Definition merged (src : list Z) (shift : Z) (q : nat) : Z :=
  Z.lor (Z.shiftl (nth q src 0) shift mod 256)
        (Z.shiftr (nth (S q) src 0) (8 - shift)).


(** Bit [i] of the buffer [appendIntoBuffer] leaves behind: the bits of [k],
    with the token OR-ed into the last byte of the buffer. *)
Definition append_bit (k : Key) (t : Token) (i : Z) : bool :=
  let n := key_length k + token_length t in
  bitAt (key_value k) i
  || ((8 * (bytesNeeded n - 1) <=? i) && (i <? n)
      && Z.testbit (token_value t) (n - 1 - i)).

(** Tokens as [NewToken] builds them from a byte and a branch factor. *)
Definition is_token (t : Token) : Prop :=
  1 <= token_length t <= 8 /\ is_byte (token_value t).

(** The token sizes of the four branch factors. *)
Definition token_size (size : Z) : Prop :=
  size = 1 \/ size = 2 \/ size = 4 \/ size = 8.

(** A boolean check of the representation invariant. *)
Definition wfb (k : Key) : bool :=
  (0 <=? key_length k)
  && (len (key_value k) =? bytesNeeded (key_length k))
  && forallb (fun b => (0 <=? b) && (b <? 256)) (key_value k)
  && forallb (fun i => negb (bitAt (key_value k) i))
       (seqZ (key_length k) (8 * len (key_value k) - key_length k)).

(** The keys the public constructors and transformations produce, from
    byte strings, tokens with a length of one to eight bits and non-negative
    bit counts. *)
Inductive produced : Key -> Prop :=
| produced_empty : produced emptyKey
| produced_ToKey bs : Forall is_byte bs -> produced (ToKey bs)
| produced_Append k t r :
    produced k -> is_token t -> Append k t = Ret r -> produced r
| produced_AppendExtend k t e r :
    produced k -> is_token t -> produced e ->
    AppendExtend k t e = Ret r -> produced r
| produced_Skip k n r :
    produced k -> 0 <= n -> Skip k n = Ret r -> produced r
| produced_Take k n r :
    produced k -> 0 <= n -> Take k n = Ret r -> produced r.

(** The lexicographic comparison of bit sequences: the first differing bit
    decides, and a proper prefix is smaller. *)
Fixpoint bits_compare (x y : list bool) : comparison :=
  match x, y with
  | [], [] => Eq
  | [], _ :: _ => Lt
  | _ :: _, [] => Gt
  | a :: x', b :: y' =>
      match a, b with
      | false, true => Lt
      | true, false => Gt
      | _, _ => bits_compare x' y'
      end
  end.

Definition comparison_eqb (c d : comparison) : bool :=
  match c, d with
  | Eq, Eq | Lt, Lt | Gt, Gt => true
  | _, _ => false
  end.

(** ** Token configurations *)

Record tokenConfiguration : Type := mkTokenConfiguration {
  branchFactor : Z;
  bitsPerToken : Z
}.

Definition BranchFactor2TokenConfig : tokenConfiguration :=
  {| branchFactor := 2; bitsPerToken := 1 |}.
Definition BranchFactor4TokenConfig : tokenConfiguration :=
  {| branchFactor := 4; bitsPerToken := 2 |}.
Definition BranchFactor16TokenConfig : tokenConfiguration :=
  {| branchFactor := 16; bitsPerToken := 4 |}.
Definition BranchFactor256TokenConfig : tokenConfiguration :=
  {| branchFactor := 256; bitsPerToken := 8 |}.

Definition validTokenConfigurations : list tokenConfiguration :=
  [ BranchFactor2TokenConfig; BranchFactor4TokenConfig;
    BranchFactor16TokenConfig; BranchFactor256TokenConfig ].

(** [validConfig == t] on the struct. *)
Definition tokenConfiguration_eqb (a b : tokenConfiguration) : bool :=
  (branchFactor a =? branchFactor b) && (bitsPerToken a =? bitsPerToken b).

(** The loop of [tokenConfiguration.Valid] over the configurations left. *)
Fixpoint tokenConfiguration_Valid_loop (configs : list tokenConfiguration)
    (t : tokenConfiguration) : option error :=
  match configs with
  | [] => Some ErrInvalidTokenConfig
  | validConfig :: rest =>
      if tokenConfiguration_eqb validConfig t then None
      else tokenConfiguration_Valid_loop rest t
  end.

(** [tokenConfiguration.Valid]: [None] is the nil error. *)
Definition tokenConfiguration_Valid (t : tokenConfiguration) : option error :=
  tokenConfiguration_Valid_loop validTokenConfigurations t.

Definition ToToken (t : tokenConfiguration) (val : Z) : Token :=
  {| token_value := val; token_length := bitsPerToken t |}.

Definition tokenConfiguration_BranchFactor (t : tokenConfiguration) : Z :=
  branchFactor t.

Definition tokenConfiguration_BitsPerToken (t : tokenConfiguration) : Z :=
  bitsPerToken t.

(** ** Well-formed proofs and live iterators *)

(** The path of every node is shorter than the path of the next one, as
    when every node is a proper ancestor of the next. *)
Fixpoint growing {ID : Type} (nodes : list (ProofNode ID)) : bool :=
  match nodes with
  | n0 :: rest =>
      match rest with
      | n1 :: _ => (length (KeyPath ID n0) <? length (KeyPath ID n1))%nat
      | [] => true
      end && growing rest
  | [] => true
  end.

(** No node has a child under the token [NodeBranchFactor] itself. *)
Definition tokens_below {ID : Type} (NodeBranchFactor : Z)
    (nodes : list (ProofNode ID)) : bool :=
  forallb (fun node =>
             match Children ID node !! to_byte NodeBranchFactor with
             | Some _ => false
             | None => true
             end) nodes.

(** An iterator that is not exhausted and points at a node of its proof. *)
Definition live {ID : Type} (i : proofIterator ID) : Prop :=
  exhausted ID i = false /\ 0 <= nodeIndex ID i < len (proof ID i).

(** The key the next call of [Next] returns on a live iterator: the path of
    the current node, or that path with the recorded child token appended. *)
Definition pendingKey {ID : Type} (i : proofIterator ID) : path :=
  match nextChildIndex ID i !! nodeIndex ID i with
  | None => getPath (nodeToPath ID i) (nodeIndex ID i)
  | Some childIdx =>
      path_Append (getPath (nodeToPath ID i) (nodeIndex ID i))
        (to_byte childIdx)
  end.
(** * Proofs *)

Ltac Zify.zify_post_hook ::= Z.to_euclidean_division_equations.

Lemma bytesNeeded_spec n : 0 <= n -> bytesNeeded n = (n + 7) / 8.
Proof. intros Hn. unfold bytesNeeded. destruct (Z.eqb_spec (Z.rem n 8) 0); simpl; lia. Qed.

Lemma dualBitIndex_spec s : 0 <= s <= 8 -> dualBitIndex s = (8 - s) mod 8.
Proof. intros Hs. unfold dualBitIndex. lia. Qed.

Lemma rem8_mod n : 0 <= n -> Z.rem n 8 = n mod 8.
Proof. intros. lia. Qed.

Lemma quot8_div n : 0 <= n -> Z.quot n 8 = n / 8.
Proof. intros. lia. Qed.

(** ** Lengths *)

Lemma len_nonneg {A} (s : list A) : 0 <= len s.
Proof. unfold len. lia. Qed.

Lemma len_app {A} (a b : list A) : len (a ++ b) = len a + len b.
Proof. unfold len. rewrite length_app. lia. Qed.

Lemma len_take {A} (s : list A) n : 0 <= n <= len s -> len (take (Z.to_nat n) s) = n.
Proof. unfold len. intros. rewrite length_take. lia. Qed.

Lemma len_drop {A} (s : list A) n : 0 <= n <= len s -> len (drop (Z.to_nat n) s) = len s - n.
Proof. unfold len. intros. rewrite length_drop. lia. Qed.

Lemma len_replicate {A} n (x : A) : 0 <= n -> len (replicate (Z.to_nat n) x) = n.
Proof. unfold len. intros. rewrite length_replicate. lia. Qed.

Lemma len_insert {A} (s : list A) i x : len (<[i := x]> s) = len s.
Proof. unfold len. by rewrite length_insert. Qed.

(** ** The primitive operations succeed within bounds *)

Lemma index_Ret s i : 0 <= i < len s -> index s i = Ret (nth (Z.to_nat i) s 0).
Proof.
  intros Hi. unfold index.
  destruct (Z.ltb_spec i 0); [lia|]. destruct (Z.leb_spec (len s) i); [lia|]. done.
Qed.

Lemma store_Ret s i v : 0 <= i < len s -> store s i v = Ret (<[Z.to_nat i := v]> s).
Proof.
  intros Hi. unfold store.
  destruct (Z.ltb_spec i 0); [lia|]. destruct (Z.leb_spec (len s) i); [lia|]. done.
Qed.

Lemma slice_from_Ret s lo : 0 <= lo <= len s -> slice_from s lo = Ret (drop (Z.to_nat lo) s).
Proof.
  intros Hi. unfold slice_from.
  destruct (Z.ltb_spec lo 0); [lia|]. destruct (Z.ltb_spec (len s) lo); [lia|]. done.
Qed.

Lemma slice_to_Ret s hi : 0 <= hi <= len s -> slice_to s hi = Ret (take (Z.to_nat hi) s).
Proof.
  intros Hi. unfold slice_to.
  destruct (Z.ltb_spec hi 0); [lia|]. destruct (Z.ltb_spec (len s) hi); [lia|]. done.
Qed.

Lemma make_Ret n : 0 <= n -> make n = Ret (replicate (Z.to_nat n) 0).
Proof. intros Hn. unfold make. destruct (Z.ltb_spec n 0); [lia|done]. Qed.

Lemma shl8_Ret b s : 0 <= s -> shl8 b s = Ret (Z.shiftl b s mod 256).
Proof. intros Hs. unfold shl8. destruct (Z.ltb_spec s 0); [lia|done]. Qed.

Lemma shr8_Ret b s : 0 <= s -> shr8 b s = Ret (Z.shiftr b s).
Proof. intros Hs. unfold shr8. destruct (Z.ltb_spec s 0); [lia|done]. Qed.

(** ** Bits of bytes *)

Lemma byte_testbit_high b j : is_byte b -> 8 <= j -> Z.testbit b j = false.
Proof.
  intros [Hb0 Hb] Hj. destruct (Z.eq_dec b 0) as [->|Hne]; [apply Z.bits_0|].
  apply Z.bits_above_log2; [lia|].
  assert (Z.log2 b < 8); [|lia]. apply Z.log2_lt_pow2; lia.
Qed.

Lemma byte_ext a b :
  is_byte a -> is_byte b ->
  (forall j, 0 <= j < 8 -> Z.testbit a j = Z.testbit b j) -> a = b.
Proof.
  intros Ha Hb H. apply Z.bits_inj'. intros j Hj.
  destruct (Z.lt_ge_cases j 8); [apply H; lia|].
  by rewrite !byte_testbit_high.
Qed.

Lemma is_byte_bits b :
  0 <= b -> (forall j, 8 <= j -> Z.testbit b j = false) -> is_byte b.
Proof.
  intros Hb H. split; [done|].
  destruct (Z.lt_ge_cases b 256) as [|Hge]; [done|exfalso].
  assert (Hl : 8 <= Z.log2 b) by (apply Z.log2_le_pow2; lia).
  specialize (H _ Hl). rewrite Z.bit_log2 in H; [done|lia].
Qed.

Lemma is_byte_0 : is_byte 0.
Proof. unfold is_byte. lia. Qed.

Lemma is_byte_lor a b : is_byte a -> is_byte b -> is_byte (Z.lor a b).
Proof.
  intros Ha Hb. apply is_byte_bits.
  - apply Z.lor_nonneg. unfold is_byte in *. lia.
  - intros j Hj. by rewrite Z.lor_spec, !byte_testbit_high.
Qed.

Lemma is_byte_land a b : is_byte a -> is_byte (Z.land a b).
Proof.
  intros Ha. apply is_byte_bits.
  - apply Z.land_nonneg. unfold is_byte in *. lia.
  - intros j Hj. by rewrite Z.land_spec, byte_testbit_high.
Qed.

Lemma is_byte_mod x : is_byte (x mod 256).
Proof. unfold is_byte. lia. Qed.

Lemma is_byte_shiftr a s : is_byte a -> 0 <= s -> is_byte (Z.shiftr a s).
Proof.
  intros Ha Hs. apply is_byte_bits.
  - apply Z.shiftr_nonneg. unfold is_byte in *. lia.
  - intros j Hj. rewrite Z.shiftr_spec by lia. apply byte_testbit_high; [done|lia].
Qed.

Lemma testbit_shl8 b s j :
  0 <= s -> 0 <= j ->
  Z.testbit (Z.shiftl b s mod 256) j = (j <? 8) && (s <=? j) && Z.testbit b (j - s).
Proof.
  intros Hs Hj. change 256 with (2 ^ 8).
  destruct (Z.ltb_spec j 8); simpl.
  - rewrite Z.mod_pow2_bits_low by lia. rewrite Z.shiftl_spec by lia.
    destruct (Z.leb_spec s j); simpl; [done|]. apply Z.testbit_neg_r. lia.
  - apply Z.mod_pow2_bits_high. lia.
Qed.

Lemma Forall_is_byte_nth s n : Forall is_byte s -> is_byte (nth n s 0).
Proof.
  intros H. destruct (Nat.lt_ge_cases n (length s)).
  - rewrite Forall_forall in H. apply H. apply list_elem_of_In, nth_In. done.
  - rewrite nth_overflow by done. apply is_byte_0.
Qed.

(** ** Bits of byte strings *)

Lemma bitAt_split s q r :
  0 <= q -> 0 <= r < 8 ->
  bitAt s (8 * q + r) = Z.testbit (nth (Z.to_nat q) s 0) (7 - r).
Proof.
  intros Hq Hr. unfold bitAt.
  replace ((8 * q + r) / 8) with q by lia.
  replace ((8 * q + r) mod 8) with r by lia. done.
Qed.

Lemma bitAt_oob s i : 8 * len s <= i -> bitAt s i = false.
Proof.
  intros Hi. unfold bitAt. rewrite nth_overflow; [apply Z.bits_0|].
  unfold len in Hi. lia.
Qed.

Lemma bitAt_app_l a b i : 0 <= i < 8 * len a -> bitAt (a ++ b) i = bitAt a i.
Proof.
  intros Hi. unfold bitAt. rewrite app_nth1; [done|]. unfold len in Hi. lia.
Qed.

Lemma bitAt_app_r a b i : 8 * len a <= i -> bitAt (a ++ b) i = bitAt b (i - 8 * len a).
Proof.
  intros Hi. unfold bitAt, len in *. rewrite app_nth2 by lia.
  replace ((i - 8 * Z.of_nat (length a)) mod 8) with (i mod 8) by lia.
  f_equal. f_equal. lia.
Qed.

Lemma bitAt_drop s n i : 0 <= i -> bitAt (drop n s) i = bitAt s (i + 8 * Z.of_nat n).
Proof.
  intros Hi. unfold bitAt.
  replace ((i + 8 * Z.of_nat n) mod 8) with (i mod 8) by lia.
  rewrite !nth_lookup, lookup_drop. do 3 f_equal. lia.
Qed.

Lemma bitAt_take s n i :
  0 <= i -> bitAt (take n s) i = (i <? 8 * Z.of_nat n) && bitAt s i.
Proof.
  intros Hi. unfold bitAt. rewrite !nth_lookup.
  destruct (Z.ltb_spec i (8 * Z.of_nat n)); simpl.
  - rewrite lookup_take_lt by lia. done.
  - rewrite lookup_take_ge by lia. apply Z.bits_0.
Qed.

Lemma bitAt_replicate n i : bitAt (replicate n 0) i = false.
Proof.
  unfold bitAt. rewrite nth_lookup.
  destruct (replicate n 0 !! Z.to_nat (i / 8)) eqn:E; simpl; [|apply Z.bits_0].
  apply lookup_replicate in E as [-> _]. apply Z.bits_0.
Qed.

Lemma bytes_ext a b :
  Forall is_byte a -> Forall is_byte b -> length a = length b ->
  (forall i, 0 <= i < 8 * len a -> bitAt a i = bitAt b i) -> a = b.
Proof.
  intros Ha. revert b. induction Ha as [|x a Hx Ha IH]; intros b Hb Hlen H.
  - destruct b; [done|discriminate].
  - destruct Hb as [|y b Hy Hb]; [discriminate|]. f_equal.
    + apply byte_ext; [done..|]. intros j Hj.
      specialize (H (7 - j)). unfold len in H. simpl length in H.
      replace (7 - j) with (8 * 0 + (7 - j)) in H by lia.
      rewrite !bitAt_split in H by lia. simpl in H.
      replace (7 - (7 - j)) with j in H by lia. apply H. lia.
    + apply IH; [done|simpl in Hlen; lia|]. intros i Hi.
      specialize (H (i + 8)). unfold len in *. simpl length in H.
      pose proof (bitAt_drop (x :: a) 1 i) as E1.
      pose proof (bitAt_drop (y :: b) 1 i) as E2. simpl in E1, E2.
      rewrite !drop_0 in *. rewrite E1, E2 by lia. apply H. lia.
Qed.

(** ** [shiftCopy] *)

Lemma merged_is_byte src shift q :
  Forall is_byte src -> 0 < shift < 8 -> is_byte (merged src shift q).
Proof.
  intros Hs Hsh. apply is_byte_lor; [apply is_byte_mod|].
  apply is_byte_shiftr; [by apply Forall_is_byte_nth|lia].
Qed.

Lemma merged_bit src shift q r :
  Forall is_byte src -> 0 < shift < 8 -> 0 <= r < 8 ->
  Z.testbit (merged src shift q) (7 - r) = bitAt src (8 * Z.of_nat q + r + shift).
Proof.
  intros Hs Hsh Hr. unfold merged.
  rewrite Z.lor_spec, testbit_shl8, Z.shiftr_spec by lia.
  destruct (Z.lt_ge_cases (r + shift) 8).
  - replace (8 * Z.of_nat q + r + shift) with (8 * Z.of_nat q + (r + shift)) by lia.
    rewrite bitAt_split by lia. rewrite Nat2Z.id.
    rewrite (byte_testbit_high (nth (S q) src 0)); [|by apply Forall_is_byte_nth|lia].
    destruct (Z.ltb_spec (7 - r) 8); [|lia]. destruct (Z.leb_spec shift (7 - r)); [|lia].
    simpl. rewrite orb_false_r. f_equal. lia.
  - replace (8 * Z.of_nat q + r + shift)
      with (8 * Z.of_nat (S q) + (r + shift - 8)) by lia.
    rewrite bitAt_split by lia. rewrite Nat2Z.id.
    destruct (Z.leb_spec shift (7 - r)); [lia|].
    rewrite andb_false_r. simpl. f_equal. lia.
Qed.

Lemma shiftCopy_loop_spec src shift n : forall i dst,
  0 <= shift -> 0 <= 8 - shift ->
  (Z.of_nat i + Z.of_nat n < len src) -> (Z.of_nat i + Z.of_nat n <= len dst) ->
  exists dst',
    shiftCopy_loop n (Z.of_nat i) dst src shift (8 - shift)
      = Ret (Z.of_nat i + Z.of_nat n, dst')
    /\ length dst' = length dst
    /\ forall j, nth j dst' 0 =
         if decide (i <= j < i + n)%nat then merged src shift j else nth j dst 0.
Proof.
  induction n as [|n IH]; intros i dst Hs Hd Hsrc Hdst.
  - exists dst. simpl. split; [f_equal; f_equal; lia|]. split; [done|].
    intros j. case_decide; [lia|done].
  - cbn [shiftCopy_loop].
    rewrite index_Ret by lia. cbn [bind]. rewrite shl8_Ret by lia. cbn [bind].
    rewrite index_Ret by lia. cbn [bind]. rewrite shr8_Ret by lia. cbn [bind].
    rewrite store_Ret by lia. cbn [bind].
    replace (Z.of_nat i + 1) with (Z.of_nat (S i)) by lia.
    match goal with
    | |- context [shiftCopy_loop n _ ?d _ _ _] =>
        destruct (IH (S i) d) as (dst' & E & Hl & Hn);
        [done|done|lia|rewrite len_insert; lia|]
    end.
    exists dst'. rewrite E. split; [f_equal; f_equal; lia|].
    split; [by rewrite Hl, length_insert|].
    intros j. rewrite Hn. rewrite !Nat2Z.id.
    replace (Z.to_nat (Z.of_nat i + 1)) with (S i) by lia.
    destruct (decide (j = i)) as [->|Hne].
    + repeat case_decide; try lia.
      rewrite nth_lookup, list_lookup_insert_eq; [done|]. unfold len in *. lia.
    + rewrite nth_lookup, list_lookup_insert_ne, <- nth_lookup by done.
      repeat case_decide; try lia; done.
Qed.

Lemma shiftCopy_spec dst src shift :
  Forall is_byte src -> 0 < shift < 8 ->
  1 <= len src -> len src - 1 <= len dst <= len src ->
  exists dst',
    shiftCopy dst src shift = Ret dst'
    /\ length dst' = length dst
    /\ Forall is_byte dst'
    /\ forall i, 0 <= i -> bitAt dst' i = (i <? 8 * len dst) && bitAt src (i + shift).
Proof.
  intros Hs Hsh Hsrc Hdst. unfold shiftCopy.
  assert (Hd : dualBitIndex shift = 8 - shift) by (unfold dualBitIndex; lia).
  rewrite Hd.
  destruct (shiftCopy_loop_spec src shift (Z.to_nat (len src - 1)) 0 dst)
    as (dst1 & E & Hl & Hn); [lia..|].
  change (Z.of_nat 0) with 0 in E. rewrite E. cbn [bind].
  replace (0 + Z.of_nat (Z.to_nat (len src - 1))) with (len src - 1) by lia.
  assert (Hl1 : len dst1 = len dst) by (unfold len; lia).
  assert (exists dst', (if len src - 1 <? len dst1
             then let! a := index src (len src - 1) in
                  let! hi := shl8 a shift in store dst1 (len src - 1) hi
             else Ret dst1) = Ret dst'
          /\ length dst' = length dst
          /\ forall j, (j < length dst)%nat -> nth j dst' 0 = merged src shift j)
    as (dst' & E' & Hl' & Hn').
  { destruct (Z.ltb_spec (len src - 1) (len dst1)).
    - rewrite index_Ret by lia. cbn [bind]. rewrite shl8_Ret by lia. cbn [bind].
      rewrite store_Ret by lia. eexists. split; [done|].
      split; [by rewrite length_insert|]. intros j Hj.
      destruct (decide (j = Z.to_nat (len src - 1))) as [->|Hne].
      + rewrite nth_lookup, list_lookup_insert_eq by (unfold len in *; lia).
        simpl. unfold merged. rewrite (nth_overflow src (n := S (Z.to_nat (len src - 1))))
          by (unfold len in *; lia).
        rewrite Z.shiftr_0_l, Z.lor_0_r. done.
      + rewrite nth_lookup, list_lookup_insert_ne, <- nth_lookup by done.
        rewrite Hn. case_decide; [done|]. unfold len in *. lia.
    - exists dst1. split; [done|]. split; [done|]. intros j Hj.
      rewrite Hn. case_decide; [done|]. unfold len in *. lia. }
  exists dst'. split; [done|]. split; [done|]. split.
  - apply Forall_forall. intros x Hx. apply list_elem_of_In, (In_nth _ _ 0) in Hx.
    destruct Hx as (j & Hj & <-). rewrite Hn' by lia. by apply merged_is_byte.
  - intros i Hi. destruct (Z.ltb_spec i (8 * len dst)); simpl.
    + unfold bitAt at 1. replace (7 - i mod 8) with (7 - (i mod 8)) by lia.
      rewrite Hn' by (unfold len in *; lia). rewrite merged_bit by (done || lia).
      f_equal. lia.
    + apply bitAt_oob. unfold len in *. lia.
Qed.

(** ** [Take] and [Skip] *)

Lemma bitAt_insert s q v i :
  0 <= i -> (q < length s)%nat ->
  bitAt (<[q := v]> s) i =
    if decide (i / 8 = Z.of_nat q) then Z.testbit v (7 - i mod 8) else bitAt s i.
Proof.
  intros Hi Hq. unfold bitAt. rewrite !nth_lookup. case_decide as E.
  - replace (Z.to_nat (i / 8)) with q by lia. by rewrite list_lookup_insert_eq.
  - rewrite list_lookup_insert_ne by lia. done.
Qed.

Lemma testbit_255 j : 0 <= j < 8 -> Z.testbit 255 j = true.
Proof. intros Hj. change 255 with (Z.ones 8). apply Z.ones_spec_low. lia. Qed.

Lemma wf_len k : wf k -> len (key_value k) = (key_length k + 7) / 8.
Proof. intros (H0 & Hl & _). by rewrite Hl, bytesNeeded_spec. Qed.

Lemma copy_zeros_long m (s : list Z) :
  (m <= length s)%nat -> copy (replicate m 0) s = take m s.
Proof.
  intros H. unfold copy. rewrite length_replicate.
  rewrite drop_ge by (rewrite length_replicate; lia). by rewrite app_nil_r.
Qed.

Lemma Forall_is_byte_insert s q v :
  Forall is_byte s -> is_byte v -> Forall is_byte (<[q := v]> s).
Proof. intros. by apply Forall_insert. Qed.

Lemma Take_spec k n :
  wf k -> 0 <= n ->
  exists k',
    Take k n = Ret k'
    /\ key_length k' = Z.min n (key_length k)
    /\ wf k'
    /\ forall i, 0 <= i ->
         bitAt (key_value k') i = (i <? n) && bitAt (key_value k) i.
Proof.
  intros Hwf Hn. pose proof (wf_len k Hwf) as Hlen.
  destruct Hwf as (H0 & Hl & Hb & Hz). unfold Take.
  destruct (Z.leb_spec (key_length k) n) as [Hle|Hlt].
  { exists k. split; [done|]. split; [lia|]. split; [done|].
    intros i Hi. destruct (Z.ltb_spec i n); [done|]. simpl. apply Hz. lia. }
  rewrite rem8_mod by done.
  destruct (Z.eqb_spec (n mod 8) 0) as [Hr|Hr].
  - rewrite quot8_div by done. rewrite slice_to_Ret by lia. cbn [bind].
    eexists. split; [done|]. unfold wf; cbn [key_length key_value].
    split; [lia|]. split.
    + split; [done|]. split; [|split].
      * rewrite len_take by lia. rewrite bytesNeeded_spec by done. lia.
      * by apply Forall_take.
      * intros i Hi. rewrite bitAt_take by lia.
        destruct (Z.ltb_spec i (8 * Z.of_nat (Z.to_nat (n / 8)))); [lia|done].
    + intros i Hi. rewrite bitAt_take by done. f_equal.
      destruct (Z.ltb_spec i n), (Z.ltb_spec i (8 * Z.of_nat (Z.to_nat (n / 8)))); lia.
  - assert (Hm : bytesNeeded n = n / 8 + 1) by (rewrite bytesNeeded_spec; lia).
    rewrite Hm. rewrite make_Ret by lia. cbn [bind].
    rewrite copy_zeros_long by (unfold len in *; lia).
    assert (Hlt' : len (take (Z.to_nat (n / 8 + 1)) (key_value k)) = n / 8 + 1)
      by (apply len_take; lia).
    rewrite Hlt'. replace (n / 8 + 1 - 1) with (n / 8) by lia.
    rewrite index_Ret by lia. cbn [bind].
    assert (Hd : dualBitIndex (n mod 8) = 8 - n mod 8) by (unfold dualBitIndex; lia).
    rewrite Hd. rewrite shl8_Ret by lia. cbn [bind].
    rewrite store_Ret by lia. cbn [bind].
    eexists. split; [done|]. unfold wf; cbn [key_length key_value].
    split; [lia|].
    assert (Hbits : forall i, 0 <= i ->
      bitAt (<[Z.to_nat (n / 8) :=
               Z.land (nth (Z.to_nat (n / 8)) (take (Z.to_nat (n / 8 + 1)) (key_value k)) 0)
                      (Z.shiftl 255 (8 - n mod 8) mod 256)]>
             (take (Z.to_nat (n / 8 + 1)) (key_value k))) i
      = (i <? n) && bitAt (key_value k) i).
    { intros i Hi. rewrite bitAt_insert by (unfold len in *; lia).
      case_decide as E.
      - rewrite Z.land_spec, testbit_shl8 by lia.
        replace (nth (Z.to_nat (n / 8)) (take (Z.to_nat (n / 8 + 1)) (key_value k)) 0)
          with (nth (Z.to_nat (i / 8)) (key_value k) 0).
        2:{ rewrite !nth_lookup, lookup_take_lt by lia. do 2 f_equal. lia. }
        fold (bitAt (key_value k) i). rewrite andb_comm. f_equal.
        destruct (Z.ltb_spec i n), (Z.ltb_spec (7 - i mod 8) 8),
          (Z.leb_spec (8 - n mod 8) (7 - i mod 8)); simpl; try lia.
        apply testbit_255. lia.
      - rewrite bitAt_take by done. f_equal.
        destruct (Z.ltb_spec i n), (Z.ltb_spec i (8 * Z.of_nat (Z.to_nat (n / 8 + 1))));
          lia. }
    split; [|done].
    split; [done|]. split; [|split].
    + rewrite len_insert, Hlt'. lia.
    + apply Forall_is_byte_insert; [by apply Forall_take|].
      apply is_byte_land. apply Forall_is_byte_nth. by apply Forall_take.
    + intros i Hi. rewrite Hbits by lia. destruct (Z.ltb_spec i n); [lia|done].
Qed.

Lemma Skip_spec k n :
  wf k -> 0 <= n ->
  exists k',
    Skip k n = Ret k'
    /\ key_length k' = Z.max 0 (key_length k - n)
    /\ wf k'
    /\ forall i, 0 <= i ->
         bitAt (key_value k') i = bitAt (key_value k) (i + n).
Proof.
  intros Hwf Hn. pose proof (wf_len k Hwf) as Hlen.
  destruct Hwf as (H0 & Hl & Hb & Hz). unfold Skip.
  destruct (Z.leb_spec (key_length k) n) as [Hle|Hlt].
  { exists emptyKey. split; [done|]. split; [simpl; lia|]. split.
    - split; [done|]. split; [done|]. split; [constructor|]. intros. by apply bitAt_oob.
    - intros i Hi. rewrite Hz by lia. by apply bitAt_oob. }
  rewrite rem8_mod, quot8_div by done.
  rewrite slice_from_Ret by lia. cbn [bind].
  destruct (Z.eqb_spec (n mod 8) 0) as [Hr|Hr].
  - eexists. split; [done|]. unfold wf; cbn [key_length key_value].
    assert (Hbits : forall i, 0 <= i ->
      bitAt (drop (Z.to_nat (n / 8)) (key_value k)) i = bitAt (key_value k) (i + n)).
    { intros i Hi. rewrite bitAt_drop by done. f_equal. lia. }
    split; [lia|]. split; [|done].
    split; [lia|]. split; [|split].
    + rewrite len_drop by lia. rewrite bytesNeeded_spec by lia. lia.
    + by apply Forall_drop.
    + intros i Hi. rewrite Hbits by lia. apply Hz. lia.
  - rewrite make_Ret by (rewrite bytesNeeded_spec; lia). cbn [bind].
    destruct (shiftCopy_spec
                (replicate (Z.to_nat (bytesNeeded (key_length k - n))) 0)
                (drop (Z.to_nat (n / 8)) (key_value k)) (n mod 8))
      as (dst' & E & Hl' & Hb' & Hbits).
    { by apply Forall_drop. }
    { lia. }
    { rewrite len_drop by lia. lia. }
    { rewrite len_drop by lia. rewrite len_replicate by (rewrite bytesNeeded_spec; lia).
      rewrite bytesNeeded_spec by lia. lia. }
    rewrite E. cbn [bind]. eexists. split; [done|]. unfold wf; cbn [key_length key_value].
    rewrite len_replicate in Hbits by (rewrite bytesNeeded_spec; lia).
    rewrite bytesNeeded_spec in Hbits by lia.
    assert (Hbits' : forall i, 0 <= i -> bitAt dst' i = bitAt (key_value k) (i + n)).
    { intros i Hi. rewrite Hbits by done. rewrite bitAt_drop by lia.
      replace (i + n mod 8 + 8 * Z.of_nat (Z.to_nat (n / 8))) with (i + n) by lia.
      destruct (Z.ltb_spec i (8 * ((key_length k - n + 7) / 8))); [done|].
      simpl. symmetry. apply Hz. lia. }
    split; [lia|]. split; [|done].
    split; [lia|]. split; [|split].
    + unfold len. rewrite Hl', length_replicate, bytesNeeded_spec by lia. lia.
    + done.
    + intros i Hi. rewrite Hbits' by lia. apply Hz. lia.
Qed.

(** ** [Append] and [AppendExtend] *)

Lemma copy_zeros_short m (s : list Z) :
  (length s <= m)%nat -> copy (replicate m 0) s = s ++ replicate (m - length s) 0.
Proof.
  intros H. unfold copy. rewrite length_replicate.
  rewrite take_ge by done. by rewrite drop_replicate.
Qed.

Lemma bitAt_app_zeros s m i : 0 <= i -> bitAt (s ++ replicate m 0) i = bitAt s i.
Proof.
  intros Hi. destruct (Z.lt_ge_cases i (8 * len s)).
  - by apply bitAt_app_l.
  - rewrite bitAt_app_r, bitAt_replicate by done. symmetry. by apply bitAt_oob.
Qed.

Lemma Forall_is_byte_replicate m : Forall is_byte (replicate m 0).
Proof. apply Forall_replicate, is_byte_0. Qed.

Lemma appendIntoBuffer_spec k t :
  wf k -> is_token t ->
  exists buf,
    appendIntoBuffer k
      (replicate (Z.to_nat (bytesNeeded (key_length k + token_length t))) 0) t
      = Ret buf
    /\ len buf = bytesNeeded (key_length k + token_length t)
    /\ Forall is_byte buf
    /\ forall i, 0 <= i -> bitAt buf i = append_bit k t i.
Proof.
  intros Hwf [Ht Hv]. pose proof (wf_len k Hwf) as Hlen.
  destruct Hwf as (H0 & Hl & Hb & Hz). unfold appendIntoBuffer, append_bit.
  set (n := key_length k + token_length t).
  assert (Hm : bytesNeeded n = (n + 7) / 8) by (apply bytesNeeded_spec; lia).
  rewrite Hm. set (m := (n + 7) / 8).
  rewrite copy_zeros_short by (unfold len in *; lia).
  set (P := key_value k ++ replicate (Z.to_nat m - length (key_value k)) 0).
  assert (HP : len P = m).
  { unfold P, len in *. rewrite length_app, length_replicate. lia. }
  assert (HPb : Forall is_byte P).
  { apply Forall_app. split; [done|apply Forall_is_byte_replicate]. }
  rewrite HP. rewrite index_Ret by lia. cbn [bind].
  rewrite rem8_mod by lia.
  assert (Hd : dualBitIndex (n mod 8) = (8 - n mod 8) mod 8)
    by (apply dualBitIndex_spec; lia).
  rewrite Hd. rewrite shl8_Ret by lia. cbn [bind].
  rewrite store_Ret by lia. eexists. split; [done|].
  split; [by rewrite len_insert|]. split.
  - apply Forall_is_byte_insert; [done|]. apply is_byte_lor; [|apply is_byte_mod].
    by apply Forall_is_byte_nth.
  - intros i Hi. rewrite bitAt_insert by (unfold len in *; lia).
    case_decide as E.
    + rewrite Z.lor_spec, testbit_shl8 by lia.
      replace (Z.testbit (nth (Z.to_nat (m - 1)) P 0) (7 - i mod 8))
        with (bitAt P i) by (unfold bitAt; do 3 f_equal; lia).
      unfold P. rewrite bitAt_app_zeros by done. f_equal.
      destruct (Z.ltb_spec (7 - i mod 8) 8), (Z.leb_spec (8 * (m - 1)) i),
        (Z.ltb_spec i n), (Z.leb_spec ((8 - n mod 8) mod 8) (7 - i mod 8));
        simpl; try lia.
      f_equal. lia.
    + unfold P. rewrite bitAt_app_zeros by done.
      destruct (Z.leb_spec (8 * (m - 1)) i), (Z.ltb_spec i n); simpl; try lia;
        by rewrite ?orb_false_r.
Qed.

Lemma append_bit_low k t i :
  0 <= i < key_length k -> valid_token t ->
  append_bit k t i = bitAt (key_value k) i.
Proof.
  intros Hi [Hl Hv]. unfold append_bit.
  destruct (Z.leb_spec (8 * (bytesNeeded (key_length k + token_length t) - 1)) i),
    (Z.ltb_spec i (key_length k + token_length t)); simpl;
    rewrite ?orb_false_r; try done.
  replace (Z.testbit _ (key_length k + token_length t - 1 - i)) with false;
    [by rewrite orb_false_r|].
  symmetry. apply Z.bits_above_log2; [lia|].
  destruct (Z.eq_dec (token_value t) 0) as [->|Hne]; [simpl; lia|].
  assert (Z.log2 (token_value t) < token_length t); [|lia].
  apply Z.log2_lt_pow2; lia.
Qed.

Lemma append_bit_high k t i :
  wf k -> 0 <= token_length t -> key_length k + token_length t <= i ->
  append_bit k t i = false.
Proof.
  intros (H0 & _ & _ & Hz) Ht Hi. unfold append_bit. rewrite Hz by lia.
  destruct (Z.ltb_spec i (key_length k + token_length t)); [lia|].
  by rewrite andb_false_r.
Qed.

Lemma append_bit_token k t i :
  wf k -> 0 <= token_length t -> key_length k mod 8 + token_length t <= 8 ->
  key_length k <= i < key_length k + token_length t ->
  append_bit k t i
  = Z.testbit (token_value t) (token_length t - 1 - (i - key_length k)).
Proof.
  intros (H0 & _ & _ & Hz) Ht Hal Hi. unfold append_bit. rewrite Hz by lia.
  rewrite bytesNeeded_spec by lia.
  destruct (Z.leb_spec (8 * ((key_length k + token_length t + 7) / 8 - 1)) i),
    (Z.ltb_spec i (key_length k + token_length t)); simpl; try lia.
  f_equal. lia.
Qed.

Lemma Append_spec k t :
  wf k -> is_token t ->
  exists k',
    Append k t = Ret k'
    /\ key_length k' = key_length k + token_length t
    /\ wf k'
    /\ forall i, 0 <= i -> bitAt (key_value k') i = append_bit k t i.
Proof.
  intros Hwf Ht. destruct (appendIntoBuffer_spec k t Hwf Ht) as (buf & E & Hl & Hb & Hbits).
  pose proof Hwf as (H0 & _). pose proof Ht as [Hlt _].
  unfold Append. rewrite make_Ret by (rewrite bytesNeeded_spec; lia). cbn [bind].
  rewrite E. cbn [bind]. eexists. split; [done|]. unfold wf; cbn [key_length key_value].
  split; [done|]. split; [|done].
  split; [lia|]. split; [done|]. split; [done|].
  intros i Hi. rewrite Hbits by lia. apply append_bit_high; [done|lia|done].
Qed.

Lemma AppendExtend_spec k t e :
  wf k -> is_token t -> wf e ->
  exists k',
    AppendExtend k t e = Ret k'
    /\ key_length k' = key_length k + token_length t + key_length e
    /\ wf k'
    /\ forall i, 0 <= i ->
         bitAt (key_value k') i =
           append_bit k t i
           || ((key_length k + token_length t <=? i)
               && bitAt (key_value e) (i - (key_length k + token_length t))).
Proof.
  intros Hwf Ht Hwfe.
  destruct (appendIntoBuffer_spec k t Hwf Ht) as (A & EA & HlA & HbA & HbitsA).
  pose proof (wf_len e Hwfe) as Hlene.
  destruct Hwfe as (He0 & _ & Hbe & Hze).
  pose proof Hwf as (H0 & _). pose proof Ht as [Hlt _].
  assert (Hhigh : forall i, key_length k + token_length t <= i -> append_bit k t i = false)
    by (intros; apply append_bit_high; [done|lia|done]).
  unfold AppendExtend.
  set (N := key_length k + token_length t) in *.
  set (E := key_length e) in *.
  rewrite (bytesNeeded_spec N) in * by lia.
  rewrite (bytesNeeded_spec (N + E)) by lia.
  set (m := (N + 7) / 8) in *. set (M := (N + E + 7) / 8).
  rewrite make_Ret by lia. cbn [bind].
  rewrite slice_to_Ret by (rewrite len_replicate; lia). cbn [bind].
  rewrite take_replicate, Nat.min_l by lia.
  rewrite EA. cbn [bind]. rewrite drop_replicate.
  set (Z0 := replicate (Z.to_nat M - Z.to_nat m) 0).
  assert (HlZ : len Z0 = M - m).
  { unfold Z0, len. rewrite length_replicate. lia. }
  rewrite slice_from_Ret by (rewrite len_app; lia). cbn [bind].
  assert (HlA' : length A = Z.to_nat m) by (unfold len in HlA; lia).
  assert (Hd1 : drop 1 (drop (Z.to_nat (m - 1)) (A ++ Z0)) = Z0).
  { rewrite drop_drop. apply drop_app_length'. lia. }
  assert (Hhead : take (Z.to_nat (m - 1)) (A ++ Z0) = take (Z.to_nat (m - 1)) A).
  { apply take_app_le. lia. }
  assert (Hfin : forall v : list Z, Forall is_byte v -> len v = M ->
            (forall i, 0 <= i -> bitAt v i =
               append_bit k t i || ((N <=? i) && bitAt (key_value e) (i - N))) ->
            exists k', Ret {| key_length := N + E; key_value := v |} = Ret k'
              /\ key_length k' = N + E /\ wf k'
              /\ forall i, 0 <= i -> bitAt (key_value k') i =
                   append_bit k t i || ((N <=? i) && bitAt (key_value e) (i - N))).
  { intros v Hv Hlv Hbv. eexists. split; [done|]. unfold wf; cbn [key_length key_value].
    split; [done|]. split; [|done]. split; [lia|]. split; [|split; [done|]].
    - rewrite bytesNeeded_spec by lia. done.
    - intros i Hi. rewrite Hbv by lia. rewrite Hhigh by lia.
      rewrite Hze by lia. by rewrite andb_false_r. }
  destruct (Z.eqb_spec E 0) as [HE|HE].
  { apply Hfin.
    - apply Forall_app. split; [done|apply Forall_is_byte_replicate].
    - rewrite len_app. lia.
    - intros i Hi. unfold Z0. rewrite bitAt_app_zeros, HbitsA by done.
      destruct (Z.leb_spec N i); simpl; [|by rewrite orb_false_r].
      rewrite Hze by lia. by rewrite orb_false_r. }
  rewrite rem8_mod by lia.
  destruct (Z.eqb_spec (N mod 8) 0) as [Hr|Hr].
  - rewrite slice_from_Ret by (rewrite len_drop; rewrite ?len_app; lia). cbn [bind].
    change (Z.to_nat 1) with 1%nat. rewrite Hd1.
    assert (Hcopy : copy Z0 (key_value e) = key_value e).
    { unfold copy. rewrite take_ge, drop_ge by (unfold len in *; lia).
      by rewrite app_nil_r. }
    rewrite Hcopy, app_assoc, take_take_drop.
    rewrite take_app_length' by lia.
    apply Hfin.
    + by apply Forall_app.
    + rewrite len_app. lia.
    + intros i Hi. destruct (Z.leb_spec N i); simpl.
      * rewrite bitAt_app_r by lia. rewrite Hhigh by done. simpl. f_equal. lia.
      * rewrite bitAt_app_l by lia. by rewrite HbitsA, orb_false_r.
  - assert (Hd : dualBitIndex (N mod 8) = 8 - N mod 8) by (unfold dualBitIndex; lia).
    rewrite index_Ret by lia. cbn [bind]. rewrite shr8_Ret by lia. cbn [bind].
    rewrite index_Ret by (rewrite len_drop; rewrite ?len_app; lia). cbn [bind].
    rewrite store_Ret by (rewrite len_drop; rewrite ?len_app; lia). cbn [bind].
    rewrite slice_from_Ret
      by (rewrite len_insert, len_drop; rewrite ?len_app; lia). cbn [bind].
    change (Z.to_nat 1) with 1%nat. change (Z.to_nat 0) with 0%nat.
    rewrite drop_insert_lt by lia. rewrite Hd1, Hd.
    destruct (shiftCopy_spec Z0 (key_value e) (8 - N mod 8))
      as (tail & ET & HlT & HbT & Hbits); [done|lia|lia|lia|].
    rewrite ET. cbn [bind]. rewrite Hhead.
    set (v := Z.lor (nth 0 (drop (Z.to_nat (m - 1)) (A ++ Z0)) 0)
                    (Z.shiftr (nth 0 (key_value e) 0) (N mod 8))).
    assert (Hone : take 1 (<[0%nat := v]> (drop (Z.to_nat (m - 1)) (A ++ Z0))) = [v]).
    { destruct (drop (Z.to_nat (m - 1)) (A ++ Z0)) eqn:Ed; [|done].
      apply (f_equal length) in Ed. rewrite length_drop, length_app in Ed.
      simpl in Ed. lia. }
    rewrite Hone.
    assert (Hlast : nth 0 (drop (Z.to_nat (m - 1)) (A ++ Z0)) 0
                    = nth (Z.to_nat (m - 1)) A 0).
    { rewrite !nth_lookup, lookup_drop, Nat.add_0_r, lookup_app_l by lia. done. }
    assert (Hvb : is_byte v).
    { unfold v. apply is_byte_lor.
      - rewrite Hlast. by apply Forall_is_byte_nth.
      - apply is_byte_shiftr; [by apply Forall_is_byte_nth|lia]. }
    assert (Hlh : len (take (Z.to_nat (m - 1)) A) = m - 1) by (apply len_take; lia).
    apply Hfin.
    + apply Forall_app. split; [by apply Forall_take|].
      apply Forall_cons. split; [done|done].
    + rewrite len_app, Hlh. unfold len in *. simpl length. lia.
    + intros i Hi.
      destruct (Z.lt_ge_cases i (8 * (m - 1))) as [Hlo|Hge].
      { rewrite bitAt_app_l by lia. rewrite bitAt_take by done.
        destruct (Z.ltb_spec i (8 * Z.of_nat (Z.to_nat (m - 1)))); [|lia]. simpl.
        rewrite HbitsA by done.
        destruct (Z.leb_spec N i); [lia|]. by rewrite orb_false_r. }
      rewrite bitAt_app_r by lia. rewrite Hlh.
      destruct (Z.lt_ge_cases i (8 * m)) as [Hmid|Hhi].
      { replace (i - 8 * (m - 1)) with (8 * 0 + (i - 8 * (m - 1))) by lia.
        rewrite bitAt_split by lia. simpl nth. unfold v.
        rewrite Z.lor_spec, Hlast, Z.shiftr_spec by lia. f_equal.
        - rewrite <- HbitsA by done. unfold bitAt. do 3 f_equal; lia.
        - destruct (Z.leb_spec N i); simpl.
          + replace (i - N) with (8 * 0 + (i - N)) by lia.
            rewrite bitAt_split by lia. simpl. f_equal. lia.
          + apply byte_testbit_high; [by apply Forall_is_byte_nth|lia]. }
      pose proof (bitAt_drop (v :: tail) 1 (i - 8 * (m - 1) - 8)) as Edrop.
      change (8 * Z.of_nat 1) with 8 in Edrop.
      change (drop 1 (v :: tail)) with tail in Edrop.
      replace (i - 8 * (m - 1) - 8 + 8) with (i - 8 * (m - 1)) in Edrop by lia.
      change ([v] ++ tail) with (v :: tail).
      rewrite <- Edrop by lia.
      rewrite Hbits by lia. rewrite Hhigh by lia. simpl.
      destruct (Z.leb_spec N i); [|lia]. simpl.
      replace (i - 8 * (m - 1) - 8 + (8 - N mod 8)) with (i - N) by lia.
      destruct (Z.ltb_spec (i - 8 * (m - 1) - 8) (8 * len Z0)); [done|].
      simpl. symmetry. apply Hze. lia.
Qed.

(** ** [HasPrefix] and [Key.Token] *)

Lemma strings_HasPrefix_take s p :
  strings_HasPrefix s p = true <-> (length p <= length s)%nat /\ take (length p) s = p.
Proof.
  revert s. induction p as [|x p IH]; intros s; simpl.
  - split; [intros _; split; [lia|done]|done].
  - destruct s as [|y s]; simpl.
    + split; [done|]. intros [? _]. lia.
    + rewrite andb_true_iff, IH, Z.eqb_eq. split.
      * intros [-> [? ->]]. split; [lia|done].
      * intros [? E]. injection E as -> E. split; [done|]. split; [lia|done].
Qed.

Lemma strings_HasPrefix_bits s p :
  Forall is_byte s -> Forall is_byte p ->
  strings_HasPrefix s p = true
  <-> len p <= len s /\ forall i, 0 <= i < 8 * len p -> bitAt s i = bitAt p i.
Proof.
  intros Hs Hp. rewrite strings_HasPrefix_take. unfold len. split.
  - intros [Hl E]. split; [lia|]. intros i Hi. rewrite <- E at 1.
    rewrite bitAt_take by lia. destruct (Z.ltb_spec i (8 * Z.of_nat (length p))); [done|lia].
  - intros [Hl E]. split; [lia|]. apply bytes_ext.
    + by apply Forall_take.
    + done.
    + rewrite length_take. lia.
    + intros i Hi. unfold len in Hi. rewrite length_take in Hi.
      rewrite bitAt_take by lia. rewrite <- E by lia.
      destruct (Z.ltb_spec i (8 * Z.of_nat (length p))); [done|lia].
Qed.

Lemma is_byte_255 : is_byte 255.
Proof. unfold is_byte. lia. Qed.

Lemma lor_mask_eq a b r :
  is_byte a -> is_byte b -> 0 < r < 8 ->
  Z.lor a (Z.shiftr 255 r) = Z.lor b (Z.shiftr 255 r)
  <-> forall j, 0 <= j < r -> Z.testbit a (7 - j) = Z.testbit b (7 - j).
Proof.
  intros Ha Hb Hr. split.
  - intros E j Hj. apply (f_equal (fun z => Z.testbit z (7 - j))) in E.
    rewrite !Z.lor_spec, Z.shiftr_spec in E by lia.
    rewrite (byte_testbit_high 255) in E; [|apply is_byte_255|lia].
    by rewrite !orb_false_r in E.
  - intros H. apply Z.bits_inj'. intros j Hj.
    rewrite !Z.lor_spec, Z.shiftr_spec by lia.
    destruct (Z.lt_ge_cases j (8 - r)).
    + rewrite testbit_255 by lia. by rewrite !orb_true_r.
    + f_equal. destruct (Z.lt_ge_cases j 8).
      * specialize (H (7 - j)). replace (7 - (7 - j)) with j in H by lia. apply H. lia.
      * by rewrite !byte_testbit_high.
Qed.

Lemma HasPrefix_spec k p :
  wf k -> wf p ->
  exists b,
    HasPrefix k p = Ret b
    /\ (b = true <->
        key_length p <= key_length k
        /\ forall i, 0 <= i < key_length p ->
             bitAt (key_value k) i = bitAt (key_value p) i).
Proof.
  intros Hk Hp. pose proof (wf_len k Hk) as Hlk. pose proof (wf_len p Hp) as Hlp.
  destruct Hk as (Hk0 & _ & Hkb & Hkz). destruct Hp as (Hp0 & _ & Hpb & Hpz).
  unfold HasPrefix, remainderBitCount.
  destruct (Z.ltb_spec (key_length k) (key_length p)) as [Hlt|Hge].
  { exists false. split; [done|]. split; [done|]. intros [? _]. lia. }
  rewrite rem8_mod by done.
  destruct (Z.eqb_spec (key_length p mod 8) 0) as [Hr|Hr].
  { eexists. split; [done|]. rewrite strings_HasPrefix_bits by done.
    replace (8 * len (key_value p)) with (key_length p) by lia.
    split; intros [_ H]; (split; [lia|done]). }
  set (lp := len (key_value p)) in *.
  rewrite shr8_Ret by lia. cbn [bind].
  rewrite index_Ret by lia. cbn [bind].
  rewrite index_Ret by lia. cbn [bind].
  set (pb := nth (Z.to_nat (lp - 1)) (key_value p) 0).
  set (kb := nth (Z.to_nat (lp - 1)) (key_value k) 0).
  assert (Hmask : Z.lor pb (Z.shiftr 255 (key_length p mod 8))
                  = Z.lor kb (Z.shiftr 255 (key_length p mod 8))
                  <-> forall i, 8 * (lp - 1) <= i < key_length p ->
                        bitAt (key_value k) i = bitAt (key_value p) i).
  { rewrite lor_mask_eq; [|by apply Forall_is_byte_nth..|lia]. split.
    - intros H i Hi. replace i with (8 * (lp - 1) + (i - 8 * (lp - 1))) by lia.
      rewrite !bitAt_split by lia. symmetry. apply H. lia.
    - intros H j Hj. specialize (H (8 * (lp - 1) + j)).
      rewrite !bitAt_split in H by lia. symmetry. apply H. lia. }
  destruct (Z.eqb_spec (Z.lor pb (Z.shiftr 255 (key_length p mod 8)))
                       (Z.lor kb (Z.shiftr 255 (key_length p mod 8)))) as [Em|Em];
    cbn [negb].
  - rewrite slice_to_Ret by (fold lp; lia). cbn [bind].
    eexists. split; [done|].
    rewrite strings_HasPrefix_bits by (done || by apply Forall_take).
    rewrite len_take by (fold lp; lia).
    pose proof (proj1 Hmask Em) as Em'. split.
    + intros [_ H]. split; [done|]. intros i Hi.
      destruct (Z.lt_ge_cases i (8 * (lp - 1))); [|apply Em'; lia].
      rewrite H by lia. rewrite bitAt_take by lia.
      destruct (Z.ltb_spec i (8 * Z.of_nat (Z.to_nat (lp - 1)))); [done|lia].
    + intros [_ H]. split; [lia|]. intros i Hi.
      rewrite H by lia. rewrite bitAt_take by lia.
      destruct (Z.ltb_spec i (8 * Z.of_nat (Z.to_nat (lp - 1)))); [done|lia].
  - exists false. split; [done|]. split; [done|]. intros [_ H].
    exfalso. apply Em. apply (proj2 Hmask). intros i Hi. apply H. lia.
Qed.

Lemma bits_bound v n :
  0 <= v -> 0 <= n -> (forall j, n <= j -> Z.testbit v j = false) -> v < 2 ^ n.
Proof.
  intros Hv Hn H. destruct (Z.lt_ge_cases v (2 ^ n)) as [|Hge]; [done|exfalso].
  assert (0 < v) by (pose proof (Z.pow_pos_nonneg 2 n); lia).
  assert (Hl : n <= Z.log2 v) by (apply Z.log2_le_pow2; lia).
  specialize (H _ Hl). rewrite Z.bit_log2 in H; [done|lia].
Qed.

Lemma Key_Token_spec k off size :
  wf k -> 0 <= off -> 1 <= size -> off mod 8 + size <= 8 ->
  off + size <= key_length k ->
  exists v,
    Key_Token k off size = Ret v
    /\ 0 <= v < 2 ^ size
    /\ forall j, 0 <= j < size ->
         Z.testbit v j = bitAt (key_value k) (off + size - 1 - j).
Proof.
  intros Hk Hoff Hsize Hal Hin. pose proof (wf_len k Hk) as Hlk.
  destruct Hk as (Hk0 & _ & Hkb & _). unfold Key_Token.
  rewrite quot8_div, rem8_mod by lia.
  rewrite index_Ret by lia. cbn [bind].
  assert (Hd1 : dualBitIndex ((off + size) mod 8) = 8 - (off mod 8 + size))
    by (unfold dualBitIndex; lia).
  assert (Hd2 : dualBitIndex size = 8 - size) by (unfold dualBitIndex; lia).
  rewrite Hd1, Hd2. rewrite !shr8_Ret by lia. cbn [bind].
  set (b := nth (Z.to_nat (off / 8)) (key_value k) 0).
  assert (Hb : is_byte b) by (by apply Forall_is_byte_nth).
  assert (Hbit : forall j, 0 <= j ->
    Z.testbit (Z.land (Z.shiftr b (8 - (off mod 8 + size))) (Z.shiftr 255 (8 - size))) j
    = (j <? size) && Z.testbit b (j + (8 - (off mod 8 + size)))).
  { intros j Hj. rewrite Z.land_spec, !Z.shiftr_spec by lia. rewrite andb_comm. f_equal.
    destruct (Z.ltb_spec j size).
    - apply testbit_255. lia.
    - apply byte_testbit_high; [apply is_byte_255|lia]. }
  eexists. split; [done|]. split; [split|].
  - apply Z.land_nonneg. left. apply Z.shiftr_nonneg. unfold is_byte in Hb. lia.
  - apply bits_bound; [|lia|].
    + apply Z.land_nonneg. left. apply Z.shiftr_nonneg. unfold is_byte in Hb. lia.
    + intros j Hj. rewrite Hbit by lia. destruct (Z.ltb_spec j size); [lia|done].
  - intros j Hj. rewrite Hbit by lia. destruct (Z.ltb_spec j size); [|lia]. simpl.
    unfold bitAt, b. f_equal; [do 2 f_equal|]; lia.
Qed.

(** ** The bit sequence of a key *)

Lemma length_bits k : length (bits k) = Z.to_nat (key_length k).
Proof. unfold bits. by rewrite length_fmap, length_seqZ. Qed.

Lemma lookup_bits k i :
  bits k !! i =
    if decide (Z.of_nat i < key_length k)
    then Some (bitAt (key_value k) (Z.of_nat i)) else None.
Proof.
  unfold bits. rewrite list_lookup_fmap. case_decide.
  - by rewrite lookup_seqZ_lt.
  - by rewrite lookup_seqZ_ge by lia.
Qed.

Lemma length_token_bits t : length (token_bits t) = Z.to_nat (token_length t).
Proof. unfold token_bits. by rewrite length_fmap, length_seqZ. Qed.

Lemma lookup_token_bits t i :
  token_bits t !! i =
    if decide (Z.of_nat i < token_length t)
    then Some (Z.testbit (token_value t) (token_length t - 1 - Z.of_nat i))
    else None.
Proof.
  unfold token_bits. rewrite list_lookup_fmap. case_decide.
  - by rewrite lookup_seqZ_lt.
  - by rewrite lookup_seqZ_ge by lia.
Qed.

Lemma bits_prefix_iff p k :
  0 <= key_length p -> 0 <= key_length k ->
  bits p `prefix_of` bits k
  <-> key_length p <= key_length k
      /\ forall i, 0 <= i < key_length p ->
           bitAt (key_value k) i = bitAt (key_value p) i.
Proof.
  intros Hp Hk. split.
  - intros Hpre. pose proof (prefix_length _ _ Hpre) as Hl.
    rewrite !length_bits in Hl. split; [lia|]. intros i Hi.
    pose proof (prefix_lookup_lt (bits p) (bits k) (Z.to_nat i)
                  ltac:(rewrite length_bits; lia) Hpre) as E.
    rewrite !lookup_bits in E. rewrite Z2Nat.id in E by lia.
    repeat case_decide; try lia. by injection E.
  - intros [Hl H].
    replace (bits p) with (take (Z.to_nat (key_length p)) (bits k)); [apply prefix_take|].
    apply list_eq. intros i. rewrite lookup_bits.
    destruct (decide (i < Z.to_nat (key_length p))%nat).
    + rewrite lookup_take_lt, lookup_bits by done.
      repeat case_decide; try lia. f_equal. apply H. lia.
    + rewrite lookup_take_ge by lia. case_decide; [lia|done].
Qed.

Lemma bits_inj k1 k2 : wf k1 -> wf k2 -> bits k1 = bits k2 -> k1 = k2.
Proof.
  intros Hw1 Hw2 E. pose proof (wf_len _ Hw1) as Hl1. pose proof (wf_len _ Hw2) as Hl2.
  destruct Hw1 as (H1 & _ & Hb1 & Hz1). destruct Hw2 as (H2 & _ & Hb2 & Hz2).
  assert (HL : key_length k1 = key_length k2).
  { apply (f_equal length) in E. rewrite !length_bits in E. lia. }
  destruct k1 as [L1 v1], k2 as [L2 v2]. simpl in *. subst L2. f_equal.
  apply bytes_ext; [done..|unfold len in *; lia|].
  intros i Hi. destruct (Z.lt_ge_cases i L1).
  - apply (f_equal (fun l => l !! Z.to_nat i)) in E. rewrite !lookup_bits in E.
    simpl in E. rewrite Z2Nat.id in E by lia. case_decide; [|lia]. by injection E.
  - by rewrite Hz1, Hz2.
Qed.

Lemma Key_eqb_eq a b : Key_eqb a b = true <-> a = b.
Proof.
  destruct a as [la va], b as [lb vb]. unfold Key_eqb. simpl.
  rewrite andb_true_iff, Z.eqb_eq.
  assert (Hv : forall x y, bytes_eqb x y = true <-> x = y).
  { induction x as [|x0 x IH]; intros [|y0 y]; simpl; try done.
    rewrite andb_true_iff, Z.eqb_eq, IH. split; [by intros [-> ->]|].
    intros E. by injection E. }
  rewrite Hv. split; [by intros [-> ->]|]. intros E. by injection E.
Qed.

Lemma bits_concat k t e r :
  0 <= key_length k -> 0 <= token_length t -> 0 <= key_length e ->
  key_length r = key_length k + token_length t + key_length e ->
  (forall i, 0 <= i < key_length k ->
     bitAt (key_value r) i = bitAt (key_value k) i) ->
  (forall i, key_length k <= i < key_length k + token_length t ->
     bitAt (key_value r) i
     = Z.testbit (token_value t) (token_length t - 1 - (i - key_length k))) ->
  (forall i, key_length k + token_length t <= i < key_length r ->
     bitAt (key_value r) i
     = bitAt (key_value e) (i - (key_length k + token_length t))) ->
  bits r = bits k ++ token_bits t ++ bits e.
Proof.
  intros Hk Ht He Hl H1 H2 H3. apply list_eq. intros i.
  rewrite !lookup_app, !lookup_bits, lookup_token_bits, length_bits, length_token_bits.
  repeat case_decide; try lia; f_equal.
  - apply H1. lia.
  - rewrite H2 by lia. f_equal. lia.
  - rewrite H3 by lia. f_equal. lia.
Qed.

(** ** [iteratedHasPrefix] *)

Lemma token_eq_bits a b size :
  0 <= size -> 0 <= a < 2 ^ size -> 0 <= b < 2 ^ size ->
  (forall j, 0 <= j < size -> Z.testbit a j = Z.testbit b j) -> a = b.
Proof.
  intros Hs Ha Hb H. apply Z.bits_inj'. intros j Hj.
  destruct (Z.lt_ge_cases j size); [apply H; lia|].
  assert (Hhi : forall v, 0 <= v < 2 ^ size -> Z.testbit v j = false).
  { intros v Hv. destruct (Z.eq_dec v 0) as [->|Hne]; [apply Z.bits_0|].
    apply Z.bits_above_log2; [lia|].
    assert (Z.log2 v < size); [|lia]. apply Z.log2_lt_pow2; lia. }
  by rewrite !Hhi.
Qed.

Lemma iteratedHasPrefix_loop_spec k p skip size :
  wf k -> wf p -> token_size size ->
  key_length p mod size = 0 -> skip mod size = 0 ->
  0 <= skip -> skip + key_length p <= key_length k ->
  forall fuel i,
    0 <= i -> i mod size = 0 -> key_length p - i <= Z.of_nat fuel ->
    exists b,
      iteratedHasPrefix_loop fuel k p skip size i = Ret b
      /\ (b = true <->
          forall j, i <= j < key_length p ->
            bitAt (key_value k) (skip + j) = bitAt (key_value p) j).
Proof.
  intros Hk Hp Hsz Hpm Hsm Hs0 Hfit.
  induction fuel as [|fuel IH]; intros i Hi Him Hfuel.
  - simpl. destruct (Z.ltb_spec i (key_length p)); [lia|].
    exists true. split; [done|]. split; [|done]. intros _ j Hj. lia.
  - cbn [iteratedHasPrefix_loop].
    destruct (Z.ltb_spec i (key_length p)) as [Hlt|Hge].
    2:{ exists true. split; [done|]. split; [|done]. intros _ j Hj. lia. }
    assert (Hal : i mod 8 + size <= 8 /\ (skip + i) mod 8 + size <= 8
                  /\ i + size <= key_length p /\ 1 <= size /\ (i + size) mod size = 0).
    { destruct Hsz as [-> | [-> | [-> | ->]]]; lia. }
    destruct Hal as (Hal1 & Hal2 & Hin & Hs1 & Hnext).
    destruct (Key_Token_spec k (skip + i) size) as (a & Ea & Ha & Hab); [done|lia..|].
    destruct (Key_Token_spec p i size) as (b & Eb & Hb & Hbb); [done|lia..|].
    rewrite Ea, Eb. cbn [bind].
    destruct (Z.eqb_spec a b) as [Eab|Nab]; cbn [negb].
    + destruct (IH (i + size)) as (r & Er & Hr); [lia|done|lia|].
      exists r. split; [done|]. rewrite Hr. split.
      * intros H j Hj. destruct (Z.lt_ge_cases j (i + size)); [|apply H; lia].
        specialize (Hab (i + size - 1 - j)). specialize (Hbb (i + size - 1 - j)).
        replace (skip + i + size - 1 - (i + size - 1 - j)) with (skip + j) in Hab by lia.
        replace (i + size - 1 - (i + size - 1 - j)) with j in Hbb by lia.
        rewrite <- Hab, <- Hbb by lia. by rewrite Eab.
      * intros H j Hj. apply H. lia.
    + exists false. split; [done|]. split; [done|]. intros H. exfalso. apply Nab.
      apply (token_eq_bits a b size); [lia|done|done|].
      intros j Hj. rewrite Hab, Hbb by done.
      replace (skip + i + size - 1 - j) with (skip + (i + size - 1 - j)) by lia.
      apply H. lia.
Qed.

Lemma iteratedHasPrefix_spec k p skip size :
  wf k -> wf p -> token_size size ->
  key_length p mod size = 0 -> skip mod size = 0 ->
  0 <= skip <= key_length k ->
  exists b s,
    iteratedHasPrefix k p skip size = Ret b
    /\ Skip k skip = Ret s
    /\ HasPrefix s p = Ret b.
Proof.
  intros Hk Hp Hsz Hpm Hsm Hs.
  destruct (Skip_spec k skip Hk) as (s & Es & Hls & Hws & Hbs); [lia|].
  destruct (HasPrefix_spec s p Hws Hp) as (b' & Eb' & Hb').
  pose proof Hp as (Hp0 & _).
  unfold iteratedHasPrefix.
  destruct (Z.ltb_spec (key_length k - skip) (key_length p)) as [Hlt|Hge].
  - exists false, s. split; [done|]. split; [done|]. rewrite Eb'. f_equal.
    destruct b'; [|done]. destruct Hb' as [Hb' _]. destruct (Hb' eq_refl). lia.
  - destruct (iteratedHasPrefix_loop_spec k p skip size Hk Hp Hsz Hpm Hsm)
      with (fuel := Z.to_nat (key_length p)) (i := 0) as (b & Eb & Hb);
      [lia|lia|lia|by rewrite Zmod_0_l|lia|].
    exists b, s. split; [done|]. split; [done|]. rewrite Eb'. f_equal.
    apply eq_true_iff_eq. rewrite Hb, Hb'. split.
    + intros [_ H] j Hj. rewrite <- H by lia. rewrite Hbs by lia. f_equal. lia.
    + intros H. split; [lia|]. intros j Hj. rewrite <- H by lia.
      rewrite Hbs by lia. f_equal. lia.
Qed.

(** ** Comparison of keys *)

Lemma bits_compare_app a b l1 l2 :
  length a = length b ->
  bits_compare (a ++ l1) (b ++ l2) =
    match bits_compare a b with
    | Eq => bits_compare l1 l2
    | c => c
    end.
Proof.
  revert b. induction a as [|x a IH]; intros [|y b] Hl; try discriminate; [done|].
  simpl in *. destruct x, y; try done; apply IH; lia.
Qed.

Lemma bits_toKey_cons x v :
  bits (toKey (x :: v)) = bits (toKey [x]) ++ bits (toKey v).
Proof.
  apply list_eq. intros i. rewrite lookup_app, !lookup_bits, length_bits.
  unfold toKey, len. cbn [key_length key_value length].
  change (x :: v) with ([x] ++ v).
  repeat case_decide; try lia; try done; f_equal.
  - by rewrite bitAt_app_l by (unfold len; simpl; lia).
  - rewrite bitAt_app_r by (unfold len; simpl; lia).
    f_equal. unfold len. simpl. lia.
Qed.

Lemma byte_compare_table :
  forallb (fun x => forallb (fun y =>
      comparison_eqb (bits_compare (bits (toKey [x])) (bits (toKey [y]))) (x ?= y))
    (seqZ 0 256)) (seqZ 0 256) = true.
Proof. vm_compute. reflexivity. Qed.

Lemma byte_compare_bits x y :
  is_byte x -> is_byte y ->
  bits_compare (bits (toKey [x])) (bits (toKey [y])) = (x ?= y).
Proof.
  intros Hx Hy. pose proof byte_compare_table as H.
  rewrite forallb_forall in H. specialize (H x).
  rewrite forallb_forall in H. specialize (H ltac:(apply list_elem_of_In, elem_of_seqZ; unfold is_byte in *; lia) y
    ltac:(apply list_elem_of_In, elem_of_seqZ; unfold is_byte in *; lia)).
  by destruct (bits_compare _ _), (x ?= y).
Qed.

Lemma strings_Compare_bits va vb :
  Forall is_byte va -> Forall is_byte vb ->
  strings_Compare va vb = bits_compare (bits (toKey va)) (bits (toKey vb)).
Proof.
  intros Ha. revert vb. induction Ha as [|x va Hx Ha IH]; intros vb Hb.
  - destruct Hb as [|y vb Hy Hb]; [done|]. rewrite bits_toKey_cons. done.
  - destruct Hb as [|y vb Hy Hb].
    + rewrite bits_toKey_cons. done.
    + rewrite (bits_toKey_cons x va), (bits_toKey_cons y vb).
      rewrite bits_compare_app by (by rewrite !length_bits).
      rewrite byte_compare_bits by done. simpl. rewrite <- IH by done. done.
Qed.

Lemma bits_padded k :
  wf k ->
  bits (toKey (key_value k))
  = bits k ++ replicate (Z.to_nat (8 * len (key_value k) - key_length k)) false.
Proof.
  intros Hw. pose proof (wf_len k Hw) as Hl. destruct Hw as (H0 & _ & _ & Hz).
  apply list_eq. intros i.
  rewrite lookup_app, !lookup_bits, length_bits. unfold toKey. cbn [key_length key_value].
  repeat case_decide; try lia; try done.
  - rewrite Hz by lia. symmetry. apply lookup_replicate. split; [done|lia].
  - symmetry. apply lookup_replicate_None. lia.
Qed.

Lemma bits_compare_refl x : bits_compare x x = Eq.
Proof. induction x as [|[] x IH]; done. Qed.

Lemma bits_compare_zeros_l m l :
  (m <= length l)%nat -> bits_compare (replicate m false) l <> Gt.
Proof.
  revert l. induction m as [|m IH]; intros [|b l] Hl; simpl in *; try done; try lia.
  destruct b; [done|]. apply IH. lia.
Qed.

Lemma bits_compare_zeros_r n l :
  (n <= length l)%nat -> bits_compare l (replicate n false) <> Lt.
Proof.
  revert l. induction n as [|n IH]; intros [|b l] Hl; simpl in *; try done; try lia.
  destruct b; [done|]. apply IH. lia.
Qed.

Lemma bits_compare_pad x : forall y m n,
  (m < 8)%nat -> (n < 8)%nat ->
  Z.of_nat (length x + m) mod 8 = Z.of_nat (length y + n) mod 8 ->
  match bits_compare (x ++ replicate m false) (y ++ replicate n false) with
  | Lt => true
  | Eq => (length x <? length y)%nat
  | Gt => false
  end
  = match bits_compare x y with Lt => true | _ => false end.
Proof.
  induction x as [|a x IH]; intros [|b y] m n Hm Hn Hmod.
  - simpl length in *. cbn [app]. assert (m = n) as -> by lia.
    by rewrite bits_compare_refl.
  - pose proof (bits_compare_zeros_l m ((b :: y) ++ replicate n false)) as H.
    rewrite length_app, length_replicate in H. simpl length in *.
    cbn [app] in *. destruct (bits_compare (replicate m false) _); try done.
    exfalso. apply H; [lia|done].
  - pose proof (bits_compare_zeros_r n ((a :: x) ++ replicate m false)) as H.
    rewrite length_app, length_replicate in H. simpl length in *.
    cbn [app] in *. destruct (bits_compare _ (replicate n false)); try done.
    exfalso. apply H; [lia|done].
  - simpl length in Hmod. cbn [app bits_compare length].
    change (S (length x) <? S (length y))%nat with (length x <? length y)%nat.
    destruct a, b; try done; apply IH; try done; lia.
Qed.

Lemma Less_bits a b :
  wf a -> wf b -> Less a b = true <-> bits_compare (bits a) (bits b) = Lt.
Proof.
  intros Ha Hb. pose proof (wf_len a Ha) as Hla. pose proof (wf_len b Hb) as Hlb.
  unfold Less. rewrite strings_Compare_bits by (apply Ha || apply Hb).
  rewrite (bits_padded a Ha), (bits_padded b Hb).
  pose proof Ha as (Ha0 & _). pose proof Hb as (Hb0 & _).
  pose proof (bits_compare_pad (bits a) (bits b)
    (Z.to_nat (8 * len (key_value a) - key_length a))
    (Z.to_nat (8 * len (key_value b) - key_length b))) as H.
  rewrite !length_bits in H.
  replace (key_length a <? key_length b)
    with (Z.to_nat (key_length a) <? Z.to_nat (key_length b))%nat.
  2:{ destruct (Nat.ltb_spec (Z.to_nat (key_length a)) (Z.to_nat (key_length b))),
        (Z.ltb_spec (key_length a) (key_length b)); lia. }
  rewrite H by lia. by destruct (bits_compare (bits a) (bits b)).
Qed.

Lemma strings_Compare_antisym a b :
  strings_Compare b a = CompOpp (strings_Compare a b).
Proof.
  revert b. induction a as [|x a IH]; intros [|y b]; simpl; try done.
  rewrite (Z.compare_antisym x y). destruct (x ?= y); simpl; [apply IH|done..].
Qed.

Lemma Greater_Less a b : Greater a b = Less b a.
Proof.
  unfold Greater, Less. rewrite (strings_Compare_antisym (key_value a) (key_value b)).
  by destruct (strings_Compare (key_value a) (key_value b)).
Qed.

Lemma bits_compare_antisym x y : bits_compare y x = CompOpp (bits_compare x y).
Proof.
  revert y. induction x as [|a x IH]; intros [|b y]; simpl; try done.
  destruct a, b; simpl; done || apply IH.
Qed.

(** ** Well-formed keys *)

Lemma wfb_sound k : wfb k = true -> wf k.
Proof.
  unfold wfb. rewrite !andb_true_iff, Z.leb_le, Z.eqb_eq.
  intros [[[H0 Hl] Hb] Hz]. split; [done|]. split; [done|]. split.
  - apply Forall_forall. intros b Hin. rewrite forallb_forall in Hb.
    apply list_elem_of_In, Hb in Hin. unfold is_byte. lia.
  - intros i Hi. destruct (Z.lt_ge_cases i (8 * len (key_value k))).
    + rewrite forallb_forall in Hz. apply negb_true_iff, Hz, list_elem_of_In.
      apply elem_of_seqZ. lia.
    + by apply bitAt_oob.
Qed.

Lemma ToKey_wf bs : Forall is_byte bs -> wf (ToKey bs).
Proof.
  intros Hb. unfold wf, ToKey, toKey. cbn [key_length key_value].
  pose proof (len_nonneg bs). split; [lia|]. split; [|split; [done|]].
  - rewrite bytesNeeded_spec by lia. lia.
  - intros i Hi. apply bitAt_oob. lia.
Qed.

Lemma emptyKey_wf : wf emptyKey.
Proof. by apply wfb_sound. Qed.

Lemma valid_token_is_token t : valid_token t -> is_token t.
Proof.
  intros [Hl Hv]. split; [lia|]. unfold is_byte.
  destruct Hl as [E | [E | [E | E]]]; rewrite E in Hv; simpl in Hv; lia.
Qed.

(** A token made by [NewToken] from a valid branch factor and a value below
    it has a length in [{1,2,4,8}] and a value below [2 ^ length]. *)
Lemma NewToken_valid val bf :
  BranchFactor_Valid bf = None -> 0 <= val < bf -> valid_token (NewToken val bf).
Proof.
  unfold BranchFactor_Valid, BranchFactor2, BranchFactor4, BranchFactor16,
    BranchFactor256. intros Hv Hval.
  assert (Hbf : bf = 2 \/ bf = 4 \/ bf = 16 \/ bf = 256).
  { destruct (Z.eqb_spec bf 2), (Z.eqb_spec bf 4), (Z.eqb_spec bf 16),
      (Z.eqb_spec bf 256); try discriminate; lia. }
  destruct Hbf as [E | [E | [E | E]]]; subst bf;
    (split; [cbn; tauto|cbn; lia]).
Qed.

(** A token at a token-aligned position lies within one byte. *)
Lemma aligned_within_byte size n :
  token_size size -> 0 <= n -> n mod size = 0 -> n mod 8 + size <= 8.
Proof. intros [-> | [-> | [-> | ->]]] Hn Hm; lia. Qed.

Lemma produced_wf k : produced k -> wf k.
Proof.
  induction 1 as [|bs Hb|k t r _ IH Ht E|k t e r _ IHk Ht _ IHe E
                  |k n r _ IH Hn E|k n r _ IH Hn E].
  - apply emptyKey_wf.
  - by apply ToKey_wf.
  - destruct (Append_spec k t IH Ht) as (r' & E' & _ & Hw & _). congruence.
  - destruct (AppendExtend_spec k t e IHk Ht IHe) as (r' & E' & _ & Hw & _). congruence.
  - destruct (Skip_spec k n IH Hn) as (r' & E' & _ & Hw & _). congruence.
  - destruct (Take_spec k n IH Hn) as (r' & E' & _ & Hw & _). congruence.
Qed.

(** * Theorems about keys *)

(** C3.  For well-formed keys [HasPrefix] neither panics nor errs: it
    answers [true] exactly when the bit sequence of [prefix] (its first
    [prefix.length] bits) is a prefix of the bit sequence of [k]; and
    [HasStrictPrefix] answers [true] exactly when it is such a prefix and
    differs from [k]. *)
Theorem C3_HasPrefix_iff (k prefix : Key) :
  wf k -> wf prefix ->
  exists b s,
    HasPrefix k prefix = Ret b
    /\ HasStrictPrefix k prefix = Ret s
    /\ (b = true <-> bits prefix `prefix_of` bits k)
    /\ (s = true <-> bits prefix `prefix_of` bits k /\ prefix <> k).
Proof.
  intros Hk Hp. destruct (HasPrefix_spec k prefix Hk Hp) as (b & Eb & Hb).
  pose proof Hk as (Hk0 & _). pose proof Hp as (Hp0 & _).
  rewrite <- bits_prefix_iff in Hb by done.
  unfold HasStrictPrefix. destruct (Key_eqb k prefix) eqn:Eq; cbn [negb].
  - apply Key_eqb_eq in Eq. exists b, false. split; [done|]. split; [done|].
    split; [done|]. split; [done|]. intros [_ Hne]. by subst.
  - exists b, b. split; [done|]. split; [done|]. split; [done|].
    rewrite Hb. split; [|by intros [? _]]. intros H. split; [done|].
    intros ->. rewrite (proj2 (Key_eqb_eq k k) eq_refl) in Eq. done.
Qed.

Lemma C3_HasPrefix_iff_witness :
  exists b s,
    HasPrefix (ToKey [171; 205]) {| key_length := 12; key_value := [171; 192] |}
      = Ret b
    /\ HasStrictPrefix (ToKey [171; 205])
         {| key_length := 12; key_value := [171; 192] |} = Ret s
    /\ (b = true <->
        bits {| key_length := 12; key_value := [171; 192] |}
          `prefix_of` bits (ToKey [171; 205]))
    /\ (s = true <->
        bits {| key_length := 12; key_value := [171; 192] |}
          `prefix_of` bits (ToKey [171; 205])
        /\ {| key_length := 12; key_value := [171; 192] |} <> ToKey [171; 205]).
Proof.
  apply (C3_HasPrefix_iff (ToKey [171; 205])
           {| key_length := 12; key_value := [171; 192] |});
    apply wfb_sound; vm_compute; reflexivity.
Defined.

(** C4, as stated, fails: a two-bit token appended to a seven-bit key
    straddles a byte boundary, and its high bit is lost. *)
Lemma C4_AppendExtend_counterexample :
  Take (ToKey [0]) 7 = Ret {| key_length := 7; key_value := [0] |}
  /\ valid_token {| token_length := 2; token_value := 3 |}
  /\ AppendExtend {| key_length := 7; key_value := [0] |}
       {| token_length := 2; token_value := 3 |} emptyKey
     = Ret {| key_length := 9; key_value := [0; 128] |}
  /\ bits {| key_length := 9; key_value := [0; 128] |}
     <> bits {| key_length := 7; key_value := [0] |}
        ++ token_bits {| token_length := 2; token_value := 3 |}
        ++ bits emptyKey.
Proof.
  split; [reflexivity|]. split; [split; [simpl; lia|simpl; lia]|].
  split; [reflexivity|]. vm_compute. discriminate.
Qed.

(** C4, amended.  When the token does not straddle a byte boundary
    ([k.length mod 8 + t.length <= 8], as for every key whose length is a
    multiple of the token size), [AppendExtend] returns a key of bit length
    [k.length + t.length + e.length] whose bit sequence is the bits of [k],
    then the bits of [t], then the bits of [e]; also when
    [k.length + t.length] is not a multiple of eight. *)
Theorem C4_AppendExtend_bits (k : Key) (t : Token) (e : Key) :
  wf k -> valid_token t -> wf e ->
  key_length k mod 8 + token_length t <= 8 ->
  exists r,
    AppendExtend k t e = Ret r
    /\ key_length r = key_length k + token_length t + key_length e
    /\ bits r = bits k ++ token_bits t ++ bits e.
Proof.
  intros Hk Ht He Hal. pose proof (valid_token_is_token t Ht) as Ht'.
  destruct (AppendExtend_spec k t e Hk Ht' He) as (r & Er & Hl & _ & Hb).
  pose proof Hk as (Hk0 & _). pose proof He as (He0 & _ & _ & Hez).
  destruct Ht' as [Htl _].
  exists r. split; [done|]. split; [done|].
  apply bits_concat; [lia..|done| | |].
  - intros i Hi. rewrite Hb by lia. rewrite append_bit_low by done.
    destruct (Z.leb_spec (key_length k + token_length t) i); [lia|].
    by rewrite orb_false_r.
  - intros i Hi. rewrite Hb by lia. rewrite append_bit_token by (done || lia).
    destruct (Z.leb_spec (key_length k + token_length t) i); [lia|].
    by rewrite orb_false_r.
  - intros i Hi. rewrite Hb by lia.
    rewrite append_bit_high by (done || lia).
    destruct (Z.leb_spec (key_length k + token_length t) i); [done|lia].
Qed.

Lemma C4_AppendExtend_bits_witness :
  exists r,
    AppendExtend {| key_length := 4; key_value := [160] |}
      {| token_length := 4; token_value := 11 |}
      {| key_length := 12; key_value := [205; 224] |} = Ret r
    /\ key_length r = 4 + 4 + 12
    /\ bits r = bits {| key_length := 4; key_value := [160] |}
                ++ token_bits {| token_length := 4; token_value := 11 |}
                ++ bits {| key_length := 12; key_value := [205; 224] |}.
Proof.
  apply (C4_AppendExtend_bits {| key_length := 4; key_value := [160] |}
           {| token_length := 4; token_value := 11 |}
           {| key_length := 12; key_value := [205; 224] |}).
  - apply wfb_sound. vm_compute. reflexivity.
  - split; simpl; lia.
  - apply wfb_sound. vm_compute. reflexivity.
  - simpl. lia.
Defined.

(** C5.  For a well-formed key [p] and [0 <= n]:
    [p.Skip(n).Length() = max(0, p.Length() - n)],
    [p.Take(n).Length() = min(n, p.Length())], [p.Take(p.Length()) = p],
    [p.Skip(0) = p]; and when [n >= p.Length()], [Skip] returns the empty
    key and [Take] returns [p]. *)
Theorem C5_Skip_Take_lengths (p : Key) (n : Z) :
  wf p -> 0 <= n ->
  (exists s, Skip p n = Ret s /\ Length s = Z.max 0 (Length p - n))
  /\ (exists t, Take p n = Ret t /\ Length t = Z.min n (Length p))
  /\ Take p (Length p) = Ret p
  /\ Skip p 0 = Ret p
  /\ (Length p <= n -> Skip p n = Ret emptyKey /\ Take p n = Ret p).
Proof.
  intros Hp Hn. pose proof (wf_len p Hp) as Hlen.
  destruct (Skip_spec p n Hp Hn) as (s & Es & Hs & _).
  destruct (Take_spec p n Hp Hn) as (t & Et & Htl & _).
  destruct Hp as (H0 & _ & _ & _). unfold Length.
  split; [by exists s|]. split; [by exists t|]. split; [|split].
  - unfold Take. destruct (Z.leb_spec (key_length p) (key_length p)); [done|lia].
  - unfold Skip. destruct (Z.leb_spec (key_length p) 0) as [Hle|Hgt].
    + destruct p as [L v]. simpl in *. assert (L = 0) by lia. subst L.
      destruct v; [done|]. unfold len in Hlen. simpl in Hlen. lia.
    + rewrite slice_from_Ret by (simpl; lia). cbn [bind]. simpl.
      destruct p as [L v]. simpl. do 2 f_equal. lia.
  - intros Hle. unfold Skip, Take.
    destruct (Z.leb_spec (key_length p) n); [done|lia].
Qed.

Lemma C5_Skip_Take_lengths_witness :
  (exists s, Skip (ToKey [171; 205]) 3 = Ret s
     /\ Length s = Z.max 0 (Length (ToKey [171; 205]) - 3))
  /\ (exists t, Take (ToKey [171; 205]) 3 = Ret t
        /\ Length t = Z.min 3 (Length (ToKey [171; 205])))
  /\ Take (ToKey [171; 205]) (Length (ToKey [171; 205])) = Ret (ToKey [171; 205])
  /\ Skip (ToKey [171; 205]) 0 = Ret (ToKey [171; 205])
  /\ (Length (ToKey [171; 205]) <= 3 ->
      Skip (ToKey [171; 205]) 3 = Ret emptyKey
      /\ Take (ToKey [171; 205]) 3 = Ret (ToKey [171; 205])).
Proof.
  apply (C5_Skip_Take_lengths (ToKey [171; 205]) 3).
  - apply wfb_sound. vm_compute. reflexivity.
  - lia.
Defined.

(** C6.  For a well-formed key [p] and a token [t] with a length in
    [{1,2,4,8}] and a value below the branch factor:
    [p.Append(t).HasPrefix(p)] and [p.Append(t).HasStrictPrefix(p)] are
    true, [p.HasPrefix(p)] is true and [p.HasStrictPrefix(p)] is false. *)
Theorem C6_Append_prefix (p : Key) (t : Token) :
  wf p -> valid_token t ->
  (exists a,
     Append p t = Ret a
     /\ HasPrefix a p = Ret true
     /\ HasStrictPrefix a p = Ret true)
  /\ HasPrefix p p = Ret true
  /\ HasStrictPrefix p p = Ret false.
Proof.
  intros Hp Ht. pose proof (valid_token_is_token t Ht) as Ht'.
  destruct (Append_spec p t Hp Ht') as (a & Ea & Hl & Hwa & Hb).
  pose proof Hp as (H0 & _). destruct Ht' as [Htl _].
  split; [|split].
  - exists a. split; [done|].
    destruct (HasPrefix_spec a p Hwa Hp) as (b & Eb & Hbb).
    assert (b = true) as ->.
    { apply Hbb. split; [lia|]. intros i Hi. rewrite Hb by lia.
      by apply append_bit_low. }
    split; [done|]. unfold HasStrictPrefix.
    destruct (Key_eqb a p) eqn:Eq; [|done].
    apply Key_eqb_eq in Eq. subst a. lia.
  - destruct (HasPrefix_spec p p Hp Hp) as (b & Eb & Hbb).
    assert (b = true) as -> by (apply Hbb; split; [lia|done]). done.
  - unfold HasStrictPrefix. by rewrite (proj2 (Key_eqb_eq p p) eq_refl).
Qed.

Lemma C6_Append_prefix_witness :
  (exists a,
     Append {| key_length := 7; key_value := [170] |}
       {| token_length := 2; token_value := 3 |} = Ret a
     /\ HasPrefix a {| key_length := 7; key_value := [170] |} = Ret true
     /\ HasStrictPrefix a {| key_length := 7; key_value := [170] |} = Ret true)
  /\ HasPrefix {| key_length := 7; key_value := [170] |}
       {| key_length := 7; key_value := [170] |} = Ret true
  /\ HasStrictPrefix {| key_length := 7; key_value := [170] |}
       {| key_length := 7; key_value := [170] |} = Ret false.
Proof.
  apply (C6_Append_prefix {| key_length := 7; key_value := [170] |}
           {| token_length := 2; token_value := 3 |}).
  - apply wfb_sound. vm_compute. reflexivity.
  - split; simpl; lia.
Defined.

(** C7, as stated, fails in its general part: a token that crosses a byte
    boundary is not extracted.  The two bits at offsets 7 and 8 of
    [[0b0000_0001, 0b1000_0000]] are both one, yet [Token(7, 2)] is zero. *)
Lemma C7_Token_counterexample :
  wf (ToKey [1; 128])
  /\ 7 + 2 <= key_length (ToKey [1; 128])
  /\ bitAt (key_value (ToKey [1; 128])) 7 = true
  /\ bitAt (key_value (ToKey [1; 128])) 8 = true
  /\ Key_Token (ToKey [1; 128]) 7 2 = Ret 0.
Proof.
  split; [apply wfb_sound; vm_compute; reflexivity|].
  split; [change (7 + 2 <= 16); lia|]. repeat split; reflexivity.
Qed.

(** C7, amended.  [ToKey([0b1010_0000]).Take(4)] is a key of bit length 4
    whose [Token(0, 4)] is [0b1010]; and whenever the token lies within one
    byte ([bitOffset mod 8 + tokenBits <= 8], as for every offset that is a
    multiple of a token size in [{1,2,4,8}]) and within the key,
    [Token(bitOffset, tokenBits)] is the [tokenBits] bits that start at
    [bitOffset], right-aligned: bit [j] of the result (counted from the
    least significant) is bit [bitOffset + tokenBits - 1 - j] of the key,
    bits being counted from the most significant bit of byte 0. *)
Theorem C7_Token_extracts (k : Key) (bitOffset tokenBits : Z) :
  wf k -> 0 <= bitOffset -> 1 <= tokenBits ->
  bitOffset mod 8 + tokenBits <= 8 ->
  bitOffset + tokenBits <= key_length k ->
  (exists k4,
     Take (ToKey [160]) 4 = Ret k4 /\ Length k4 = 4 /\ Key_Token k4 0 4 = Ret 10)
  /\ exists v,
       Key_Token k bitOffset tokenBits = Ret v
       /\ 0 <= v < 2 ^ tokenBits
       /\ forall j, 0 <= j < tokenBits ->
            Z.testbit v j = bitAt (key_value k) (bitOffset + tokenBits - 1 - j).
Proof.
  intros Hk Hoff Hsize Hal Hin. split.
  - eexists. split; [reflexivity|]. split; reflexivity.
  - by apply Key_Token_spec.
Qed.

Lemma C7_Token_extracts_witness :
  (exists k4,
     Take (ToKey [160]) 4 = Ret k4 /\ Length k4 = 4 /\ Key_Token k4 0 4 = Ret 10)
  /\ exists v,
       Key_Token (ToKey [171; 205]) 12 4 = Ret v
       /\ 0 <= v < 2 ^ 4
       /\ forall j, 0 <= j < 4 ->
            Z.testbit v j = bitAt (key_value (ToKey [171; 205])) (12 + 4 - 1 - j).
Proof.
  apply (C7_Token_extracts (ToKey [171; 205]) 12 4).
  - apply wfb_sound. vm_compute. reflexivity.
  - lia.
  - lia.
  - simpl. lia.
  - change (12 + 4 <= 16). lia.
Defined.

(** C10, as stated, fails: when [bitsToSkip] exceeds the length of [k] and
    [prefix] is empty, [iteratedHasPrefix] answers false, while [Skip]
    returns the empty key, of which the empty key is a prefix. *)
Lemma C10_iteratedHasPrefix_counterexample :
  wf (ToKey [5]) /\ wf emptyKey /\ token_size 8
  /\ key_length emptyKey mod 8 = 0 /\ 16 mod 8 = 0
  /\ iteratedHasPrefix (ToKey [5]) emptyKey 16 8 = Ret false
  /\ Skip (ToKey [5]) 16 = Ret emptyKey
  /\ HasPrefix emptyKey emptyKey = Ret true.
Proof.
  split; [apply wfb_sound; vm_compute; reflexivity|].
  split; [apply emptyKey_wf|]. split; [unfold token_size; lia|].
  repeat split; reflexivity.
Qed.

(** C10, amended.  For well-formed [k] and [prefix], a token size in
    [{1,2,4,8}], a [prefix] length and a [bitsToSkip] that are multiples of
    the token size, and [0 <= bitsToSkip <= k.length]:
    [k.iteratedHasPrefix(prefix, bitsToSkip, tokenBitSize)] returns the
    boolean that [k.Skip(bitsToSkip).HasPrefix(prefix)] returns. *)
Theorem C10_iteratedHasPrefix_refines (k prefix : Key) (bitsToSkip tokenBitSize : Z) :
  wf k -> wf prefix -> token_size tokenBitSize ->
  key_length prefix mod tokenBitSize = 0 ->
  bitsToSkip mod tokenBitSize = 0 ->
  0 <= bitsToSkip <= key_length k ->
  exists b s,
    iteratedHasPrefix k prefix bitsToSkip tokenBitSize = Ret b
    /\ Skip k bitsToSkip = Ret s
    /\ HasPrefix s prefix = Ret b.
Proof. apply iteratedHasPrefix_spec. Qed.

Lemma C10_iteratedHasPrefix_refines_witness :
  exists b s,
    iteratedHasPrefix (ToKey [171; 205])
      {| key_length := 8; key_value := [188] |} 4 4 = Ret b
    /\ Skip (ToKey [171; 205]) 4 = Ret s
    /\ HasPrefix s {| key_length := 8; key_value := [188] |} = Ret b.
Proof.
  apply (C10_iteratedHasPrefix_refines (ToKey [171; 205])
           {| key_length := 8; key_value := [188] |} 4 4).
  - apply wfb_sound. vm_compute. reflexivity.
  - apply wfb_sound. vm_compute. reflexivity.
  - unfold token_size. lia.
  - reflexivity.
  - reflexivity.
  - change (0 <= 4 <= 16). lia.
Defined.

(** C9.  Every key produced by [ToKey], [Append], [AppendExtend], [Skip]
    and [Take] satisfies the representation invariant: its buffer has
    exactly [ceil(length/8)] bytes and every bit of the buffer at a position
    [>= length] is zero.  These operations do not panic on such keys, and on
    such keys raw equality and the raw comparisons [Less] and [Greater]
    coincide with equality and lexicographic comparison of the bit
    sequences (whose lengths are the keys' lengths). *)
Theorem C9_representation_invariant (k : Key) :
  produced k ->
  (0 <= key_length k
   /\ len (key_value k) = (key_length k + 7) / 8
   /\ Forall is_byte (key_value k)
   /\ forall i, key_length k <= i -> bitAt (key_value k) i = false)
  /\ (forall t, is_token t -> exists r, Append k t = Ret r)
  /\ (forall t e, is_token t -> produced e ->
        exists r, AppendExtend k t e = Ret r)
  /\ (forall n, 0 <= n -> exists r, Skip k n = Ret r)
  /\ (forall n, 0 <= n -> exists r, Take k n = Ret r)
  /\ forall k', produced k' ->
       length (bits k) = Z.to_nat (key_length k)
       /\ (k = k' <-> bits k = bits k')
       /\ (Less k k' = true <-> bits_compare (bits k) (bits k') = Lt)
       /\ (Greater k k' = true <-> bits_compare (bits k) (bits k') = Gt).
Proof.
  intros Hk. pose proof (produced_wf k Hk) as Hw.
  split; [|split; [|split; [|split; [|split]]]].
  - pose proof (wf_len k Hw). destruct Hw as (? & ? & ? & ?). done.
  - intros t Ht. destruct (Append_spec k t Hw Ht) as (r & E & _). by exists r.
  - intros t e Ht He. pose proof (produced_wf e He) as Hwe.
    destruct (AppendExtend_spec k t e Hw Ht Hwe) as (r & E & _). by exists r.
  - intros n Hn. destruct (Skip_spec k n Hw Hn) as (r & E & _). by exists r.
  - intros n Hn. destruct (Take_spec k n Hw Hn) as (r & E & _). by exists r.
  - intros k' Hk'. pose proof (produced_wf k' Hk') as Hw'.
    split; [apply length_bits|]. split; [|split].
    + split; [by intros ->|by apply bits_inj].
    + by apply Less_bits.
    + rewrite Greater_Less, Less_bits by done.
      rewrite (bits_compare_antisym (bits k) (bits k')).
      by destruct (bits_compare (bits k) (bits k')).
Qed.

Lemma C9_representation_invariant_witness :
  (0 <= 12
   /\ len [171; 192] = (12 + 7) / 8
   /\ Forall is_byte [171; 192]
   /\ forall i, 12 <= i -> bitAt [171; 192] i = false)
  /\ (forall t, is_token t ->
        exists r, Append {| key_length := 12; key_value := [171; 192] |} t = Ret r)
  /\ (forall t e, is_token t -> produced e ->
        exists r,
          AppendExtend {| key_length := 12; key_value := [171; 192] |} t e = Ret r)
  /\ (forall n, 0 <= n ->
        exists r, Skip {| key_length := 12; key_value := [171; 192] |} n = Ret r)
  /\ (forall n, 0 <= n ->
        exists r, Take {| key_length := 12; key_value := [171; 192] |} n = Ret r)
  /\ forall k', produced k' ->
       length (bits {| key_length := 12; key_value := [171; 192] |})
       = Z.to_nat 12
       /\ ({| key_length := 12; key_value := [171; 192] |} = k'
           <-> bits {| key_length := 12; key_value := [171; 192] |} = bits k')
       /\ (Less {| key_length := 12; key_value := [171; 192] |} k' = true
           <-> bits_compare
                 (bits {| key_length := 12; key_value := [171; 192] |})
                 (bits k') = Lt)
       /\ (Greater {| key_length := 12; key_value := [171; 192] |} k' = true
           <-> bits_compare
                 (bits {| key_length := 12; key_value := [171; 192] |})
                 (bits k') = Gt).
Proof.
  apply (C9_representation_invariant
           {| key_length := 12; key_value := [171; 192] |}).
  apply (produced_Take (ToKey [171; 205]) 12).
  - apply produced_ToKey. repeat constructor; unfold is_byte; lia.
  - lia.
  - reflexivity.
Defined.

(** * Theorems about the proof iterator *)

Lemma emitted_step n (i i' : proofIterator Z) :
  Next Z 0 16 i = Ret (true, i') ->
  emitted Z 0 16 (S n) i
  = (let! rest := emitted Z 0 16 n i' in Ret ((key Z i', value Z i') :: rest)).
Proof. intros E. cbn [emitted]. rewrite E. reflexivity. Qed.

Lemma stuckIterator_Next :
  Next Z 0 16 stuckIterator = Ret (true, stuckIterator).
Proof. vm_compute. reflexivity. Qed.

Lemma stuckIterator_emitted n :
  emitted Z 0 16 n stuckIterator = Ret (replicate n ([0], 11)).
Proof.
  induction n as [|n IH]; [done|].
  cbn [emitted]. rewrite stuckIterator_Next. cbn [bind]. rewrite IH. done.
Qed.

(** C1 does not hold of the code.  Over the whole keyspace of the
    one-node proof [[rootNode]] the iterator returns the keys
    [[]], [[1]], [[0]] and then [[0]] again on every further call: the keys
    are not increasing, [[0]] is repeated, and [Next] never returns false,
    so no key is the last one. *)
Theorem C1_iterator_order_violated :
  exists it,
    newProofIterator Z 0 16 [rootNode] EmptyPath = Ret it
    /\ forall n,
         emitted Z 0 16 (3 + n) it
         = Ret ([([], 0); ([1], 22); ([0], 11)] ++ replicate n ([0], 11)).
Proof.
  exists rootIterator0. split; [vm_compute; reflexivity|]. intros n.
  change (3 + n)%nat with (S (S (S n))).
  rewrite (emitted_step _ _ rootIterator1) by (vm_compute; reflexivity).
  rewrite (emitted_step _ _ rootIterator2) by (vm_compute; reflexivity).
  rewrite (emitted_step _ _ stuckIterator) by (vm_compute; reflexivity).
  rewrite stuckIterator_emitted. reflexivity.
Qed.

(** C2 does not hold of the code.  With the proof [[rootNode; innerNode]]
    and the start key [[0; 3]], the provable prefixes are [[]], [[0]],
    [[0; 5]] and [[1]]; the smallest one that is not before the start key
    is [[0; 5]].  The iterator returns [[1]] first, and then [[0]], which is
    before the start key. *)
Theorem C2_first_key_violated :
  exists it,
    newProofIterator Z 0 16 [rootNode; innerNode] [0; 3] = Ret it
    /\ emitted Z 0 16 2 it = Ret [([1], 22); ([0], 11)]
    /\ In [0; 5] (provablePrefixes Z [rootNode; innerNode])
    /\ path_Compare [0; 3] [0; 5] <= 0
    /\ path_Compare [0; 5] [1] < 0
    /\ path_Compare [0] [0; 3] < 0.
Proof.
  eexists. split; [vm_compute; reflexivity|].
  split; [vm_compute; reflexivity|].
  split; [vm_compute; tauto|].
  repeat split; vm_compute; congruence.
Qed.

(** * The node codec *)

Lemma reads_bind {A B : Type} (R1 : list Z -> parsed A)
    (R2 : A -> list Z -> parsed B) e1 e2 x1 x2 :
  reads R1 e1 x1 -> reads (R2 x1) e2 x2 ->
  reads (fun b => pbind (R1 b) R2) (e1 ++ e2) x2.
Proof.
  intros [H1 T1] [H2 T2]. split.
  - intros rest. rewrite <- app_assoc, H1. simpl. apply H2.
  - intros i Hi. rewrite length_app in Hi.
    destruct (decide (i < length e1)%nat) as [Hlt|Hge].
    + rewrite take_app_le by lia. by rewrite T1.
    + rewrite take_app_ge by lia. rewrite H1. simpl. apply T2. lia.
Qed.

Lemma reads_ret {A : Type} (x : A) : reads (fun b => Parsed x b) [] x.
Proof. split; [done|]. simpl. intros i Hi. lia. Qed.

Lemma reads_ext {A : Type} (R R' : list Z -> parsed A) e x :
  (forall b, R b = R' b) -> reads R e x -> reads R' e x.
Proof.
  intros E [H T]. split.
  - intros rest. by rewrite <- E.
  - intros i Hi. rewrite <- E. by apply T.
Qed.

Lemma reads_readByte x : reads readByte [x] x.
Proof.
  split; [done|]. simpl. intros i Hi. by replace i with 0%nat by lia.
Qed.

Lemma reads_readBytes n bs : len bs = n -> reads (readBytes n) bs bs.
Proof.
  intros Hl. unfold len in Hl. split.
  - intros rest. unfold readBytes, len. rewrite length_app.
    destruct (Z.ltb_spec (Z.of_nat (length bs + length rest)) n); [lia|].
    rewrite take_app_length', drop_app_length' by lia. done.
  - intros i Hi. unfold readBytes, len. rewrite length_take.
    destruct (Z.ltb_spec (Z.of_nat (i `min` length bs)) n); [done|lia].
Qed.

Lemma reads_decodeUint_fuel fuel : forall n,
  0 <= n <= Z.of_nat fuel -> reads decodeUint (encodeUint_fuel fuel n) n.
Proof.
  induction fuel as [|fuel IH]; intros n Hn.
  - assert (n = 0) as -> by lia. split; [done|]. simpl. intros i Hi.
    by replace i with 0%nat by lia.
  - cbn [encodeUint_fuel]. destruct (Z.ltb_spec n 128) as [Hlt|Hge].
    + split.
      * intros rest. simpl. destruct (Z.ltb_spec n 128); [done|lia].
      * simpl. intros i Hi. by replace i with 0%nat by lia.
    + destruct (IH (n / 128)) as [H T]; [lia|]. split.
      * intros rest. simpl. destruct (Z.ltb_spec (n mod 128 + 128) 128); [lia|].
        rewrite H. simpl. f_equal. lia.
      * intros [|i] Hi; [done|]. simpl in Hi. simpl.
        destruct (Z.ltb_spec (n mod 128 + 128) 128); [lia|].
        rewrite T by lia. done.
Qed.

Lemma reads_decodeUint n : 0 <= n -> reads decodeUint (encodeUint n) n.
Proof. intros Hn. apply reads_decodeUint_fuel. lia. Qed.

Lemma reads_decodeMaybeByteSlice v :
  reads decodeMaybeByteSlice (encodeMaybeByteSlice v) v.
Proof.
  destruct v as [bs|]; unfold decodeMaybeByteSlice, encodeMaybeByteSlice.
  - apply (reads_bind readByte _ [1] _ 1); [apply reads_readByte|].
    simpl. apply (reads_bind decodeUint _ _ bs (len bs));
      [apply reads_decodeUint, len_nonneg|].
    rewrite <- (app_nil_r bs) at 1.
    apply (reads_bind (readBytes (len bs)) _ bs [] bs);
      [by apply reads_readBytes|apply reads_ret].
  - rewrite <- (app_nil_r [0]).
    apply (reads_bind readByte _ [0] [] 0); [apply reads_readByte|].
    simpl. apply reads_ret.
Qed.

Lemma reads_decodeKey k :
  0 <= key_length k -> len (key_value k) = bytesNeeded (key_length k) ->
  reads decodeKey (encodeKey k) k.
Proof.
  intros H0 Hl. unfold decodeKey, encodeKey.
  apply (reads_bind decodeUint _ _ (key_value k) (key_length k));
    [by apply reads_decodeUint|].
  rewrite <- (app_nil_r (key_value k)).
  apply (reads_bind (readBytes _) _ (key_value k) [] (key_value k));
    [by apply reads_readBytes|].
  destruct k. apply reads_ret.
Qed.

Lemma reads_decodeChild c :
  valid_child c -> reads decodeChild (encodeChild c) c.
Proof.
  intros (Hi & H0 & Hl & Hid). unfold decodeChild, encodeChild.
  apply (reads_bind decodeUint _ _ _ (child_index c));
    [by apply reads_decodeUint|].
  apply (reads_bind decodeKey _ _ _ (child_compressedKey c));
    [by apply reads_decodeKey|].
  rewrite <- (app_nil_r (child_id c)).
  apply (reads_bind (readBytes HashLength) _ (child_id c) [] (child_id c));
    [by apply reads_readBytes|].
  destruct c. apply reads_ret.
Qed.

Lemma reads_decodeChildren cs :
  Forall valid_child cs ->
  reads (decodeChildren (length cs)) (concat (encodeChild <$> cs)) cs.
Proof.
  induction 1 as [|c cs Hc Hcs IH]; [apply reads_ret|].
  simpl. apply (reads_bind decodeChild _ _ _ c); [by apply reads_decodeChild|].
  rewrite <- (app_nil_r (concat _)).
  apply (reads_bind (decodeChildren (length cs)) _ _ [] cs); [done|apply reads_ret].
Qed.

Lemma reads_decodeDBNode key n :
  valid_node n ->
  reads (decodeDBNode key) (serialize n)
    (mkNode key (node_value n) (node_children n)).
Proof.
  intros Hv. unfold decodeDBNode, serialize.
  apply (reads_bind decodeMaybeByteSlice _ _ _ (node_value n));
    [apply reads_decodeMaybeByteSlice|].
  apply (reads_bind decodeUint _ _ _ (len (node_children n)));
    [apply reads_decodeUint, len_nonneg|].
  rewrite <- (app_nil_r (concat _)).
  unfold len. rewrite Nat2Z.id.
  apply (reads_bind (decodeChildren _) _ _ [] (node_children n));
    [by apply reads_decodeChildren|apply reads_ret].
Qed.

(** C8.  For every node that [serialize] encodes faithfully, with an
    encoding of [N] bytes, [parseNode] returns the node on the whole
    encoding and fails with the truncation error on every prefix of length
    [1] to [N-1] (and on the empty prefix): no node comes out of a
    truncated encoding. *)
Theorem C8_parse_truncated (key : Key) (n : dbNode) (i : nat) :
  valid_node n -> (i < length (serialize n))%nat ->
  parseNode key (serialize n)
    = inl (mkNode key (node_value n) (node_children n))
  /\ parseNode key (take i (serialize n)) = inr EncodingTruncated.
Proof.
  intros Hv Hi. destruct (reads_decodeDBNode key n Hv) as [H T].
  unfold parseNode. split.
  - rewrite <- (app_nil_r (serialize n)). by rewrite H.
  - by rewrite T.
Qed.

Lemma C8_parse_truncated_witness :
  parseNode emptyKey (serialize testRoot)
    = inl (mkNode emptyKey (node_value testRoot) (node_children testRoot))
  /\ parseNode emptyKey (take 40 (serialize testRoot)) = inr EncodingTruncated.
Proof.
  apply (C8_parse_truncated emptyKey testRoot 40).
  - unfold valid_node, testRoot. cbn [node_children].
    repeat (apply Forall_cons; split); [| |apply Forall_nil];
      (unfold valid_child; cbn [child_index child_compressedKey child_id
                                 key_length key_value];
       repeat split; try lia; reflexivity).
  - vm_compute. lia.
Defined.

(** * Further properties of keys *)

Lemma key_ext a b :
  wf a -> wf b -> key_length a = key_length b ->
  (forall i, 0 <= i -> bitAt (key_value a) i = bitAt (key_value b) i) -> a = b.
Proof.
  intros Ha Hb Hl H. pose proof (wf_len a Ha) as Hla. pose proof (wf_len b Hb) as Hlb.
  destruct Ha as (_ & _ & Hba & _), Hb as (_ & _ & Hbb & _).
  destruct a as [la va], b as [lb vb]. simpl in *. subst lb. f_equal.
  apply bytes_ext; [done..|unfold len in *; lia|]. intros i Hi. apply H. lia.
Qed.

Lemma Take_bits k n r :
  wf k -> 0 <= n -> Take k n = Ret r -> bits r = take (Z.to_nat n) (bits k).
Proof.
  intros Hk Hn E. destruct (Take_spec k n Hk Hn) as (r' & E' & Hl & Hw & Hb).
  assert (r' = r) as -> by congruence. pose proof Hk as (H0 & _).
  apply list_eq. intros i. rewrite lookup_bits, Hl.
  destruct (decide (i < Z.to_nat n)%nat).
  - rewrite lookup_take_lt, lookup_bits by done. repeat case_decide; try lia; [|done].
    f_equal. rewrite Hb by lia. destruct (Z.ltb_spec (Z.of_nat i) n); [done|lia].
  - rewrite lookup_take_ge by lia. case_decide; [lia|done].
Qed.

Lemma Skip_bits k n r :
  wf k -> 0 <= n -> Skip k n = Ret r -> bits r = drop (Z.to_nat n) (bits k).
Proof.
  intros Hk Hn E. destruct (Skip_spec k n Hk Hn) as (r' & E' & Hl & Hw & Hb).
  assert (r' = r) as -> by congruence. pose proof Hk as (H0 & _).
  apply list_eq. intros i. rewrite lookup_drop, !lookup_bits, Hl.
  repeat case_decide; try lia; [|done]. f_equal. rewrite Hb by lia. f_equal. lia.
Qed.

(** X1.  [Take(n)] keeps the first [n] bits: on a well-formed key and for
    [n >= 0] it returns the key whose bit sequence is the first [n] bits of
    the bit sequence of [k] (all of them when [n] exceeds the length), and
    that key is well formed. *)
Theorem X1_Take_keeps_first_bits (k : Key) (n : Z) :
  wf k -> 0 <= n ->
  exists r, Take k n = Ret r /\ wf r /\ bits r = take (Z.to_nat n) (bits k).
Proof.
  intros Hk Hn. destruct (Take_spec k n Hk Hn) as (r & E & _ & Hw & _).
  exists r. split; [done|]. split; [done|]. by apply Take_bits.
Qed.

Lemma X1_Take_keeps_first_bits_witness :
  exists r, Take (ToKey [171; 205]) 11 = Ret r /\ wf r
    /\ bits r = take (Z.to_nat 11) (bits (ToKey [171; 205])).
Proof.
  apply (X1_Take_keeps_first_bits (ToKey [171; 205]) 11).
  - apply wfb_sound. vm_compute. reflexivity.
  - lia.
Defined.

(** X2.  [Skip(n)] drops the first [n] bits: on a well-formed key and for
    [n >= 0] it returns the well-formed key whose bit sequence is the bit
    sequence of [k] without its first [n] bits, also when [n] is not a
    multiple of eight and the bytes are shifted. *)
Theorem X2_Skip_drops_first_bits (k : Key) (n : Z) :
  wf k -> 0 <= n ->
  exists r, Skip k n = Ret r /\ wf r /\ bits r = drop (Z.to_nat n) (bits k).
Proof.
  intros Hk Hn. destruct (Skip_spec k n Hk Hn) as (r & E & _ & Hw & _).
  exists r. split; [done|]. split; [done|]. by apply Skip_bits.
Qed.

Lemma X2_Skip_drops_first_bits_witness :
  exists r, Skip (ToKey [171; 205]) 11 = Ret r /\ wf r
    /\ bits r = drop (Z.to_nat 11) (bits (ToKey [171; 205])).
Proof.
  apply (X2_Skip_drops_first_bits (ToKey [171; 205]) 11).
  - apply wfb_sound. vm_compute. reflexivity.
  - lia.
Defined.

(** X3.  [Skip] and [Take] compose: on a well-formed key and for
    [a, b >= 0], skipping [a] and then [b] bits is skipping [a + b] bits,
    taking [a] and then [b] bits is taking [min a b] bits, and taking
    [b] bits after skipping [a] is skipping [a] bits of the first [a + b];
    the resulting keys are equal as values (length and bytes). *)
Theorem X3_Skip_Take_compose (k : Key) (a b : Z) :
  wf k -> 0 <= a -> 0 <= b ->
  (exists s1 s2,
     Skip k a = Ret s1 /\ Skip s1 b = Ret s2 /\ Skip k (a + b) = Ret s2)
  /\ (exists t1 t2,
        Take k a = Ret t1 /\ Take t1 b = Ret t2 /\ Take k (Z.min a b) = Ret t2)
  /\ (exists s1 t1 r,
        Skip k a = Ret s1 /\ Take s1 b = Ret r
        /\ Take k (a + b) = Ret t1 /\ Skip t1 a = Ret r).
Proof.
  intros Hk Ha Hb.
  destruct (Skip_spec k a Hk Ha) as (s1 & Es1 & _ & Hws1 & _).
  destruct (Skip_spec s1 b Hws1 Hb) as (s2 & Es2 & _ & Hws2 & _).
  destruct (Skip_spec k (a + b) Hk ltac:(lia)) as (s3 & Es3 & _ & Hws3 & _).
  destruct (Take_spec k a Hk Ha) as (t1 & Et1 & _ & Hwt1 & _).
  destruct (Take_spec t1 b Hwt1 Hb) as (t2 & Et2 & _ & Hwt2 & _).
  destruct (Take_spec k (Z.min a b) Hk ltac:(lia)) as (t3 & Et3 & _ & Hwt3 & _).
  destruct (Take_spec s1 b Hws1 Hb) as (r1 & Er1 & _ & Hwr1 & _).
  destruct (Take_spec k (a + b) Hk ltac:(lia)) as (u1 & Eu1 & _ & Hwu1 & _).
  destruct (Skip_spec u1 a Hwu1 Ha) as (r2 & Er2 & _ & Hwr2 & _).
  split; [|split].
  - exists s1, s2. split; [done|]. split; [done|]. rewrite Es3. f_equal.
    apply bits_inj; [done..|].
    rewrite (Skip_bits k (a + b) s3), (Skip_bits s1 b s2), (Skip_bits k a s1)
      by (done || lia).
    rewrite drop_drop. f_equal. lia.
  - exists t1, t2. split; [done|]. split; [done|]. rewrite Et3. f_equal.
    apply bits_inj; [done..|].
    rewrite (Take_bits k (Z.min a b) t3), (Take_bits t1 b t2), (Take_bits k a t1)
      by (done || lia).
    rewrite take_take. f_equal. lia.
  - exists s1, u1, r1. split; [done|]. split; [done|]. split; [done|].
    rewrite Er2. f_equal. apply bits_inj; [done..|].
    rewrite (Skip_bits u1 a r2), (Take_bits k (a + b) u1), (Take_bits s1 b r1),
      (Skip_bits k a s1) by (done || lia).
    rewrite take_drop_commute. f_equal. f_equal. lia.
Qed.

Lemma X3_Skip_Take_compose_witness :
  (exists s1 s2,
     Skip (ToKey [171; 205]) 3 = Ret s1 /\ Skip s1 6 = Ret s2
     /\ Skip (ToKey [171; 205]) (3 + 6) = Ret s2)
  /\ (exists t1 t2,
        Take (ToKey [171; 205]) 3 = Ret t1 /\ Take t1 6 = Ret t2
        /\ Take (ToKey [171; 205]) (Z.min 3 6) = Ret t2)
  /\ (exists s1 t1 r,
        Skip (ToKey [171; 205]) 3 = Ret s1 /\ Take s1 6 = Ret r
        /\ Take (ToKey [171; 205]) (3 + 6) = Ret t1 /\ Skip t1 3 = Ret r).
Proof.
  apply (X3_Skip_Take_compose (ToKey [171; 205]) 3 6).
  - apply wfb_sound. vm_compute. reflexivity.
  - lia.
  - lia.
Defined.

(** X4.  [Append] adds the bits of the token: for a well-formed key and a
    token with a length in [{1,2,4,8}] and a value below [2 ^ length] that
    does not straddle a byte boundary of the key, the bit sequence of
    [k.Append(t)] is the bit sequence of [k] followed by the bits of [t],
    and the new key is well formed. *)
Theorem X4_Append_bits (k : Key) (t : Token) :
  wf k -> valid_token t -> key_length k mod 8 + token_length t <= 8 ->
  exists r,
    Append k t = Ret r /\ wf r
    /\ key_length r = key_length k + token_length t
    /\ bits r = bits k ++ token_bits t.
Proof.
  intros Hk Ht Hal. pose proof (valid_token_is_token t Ht) as Ht'.
  destruct (Append_spec k t Hk Ht') as (r & E & Hl & Hw & Hb).
  pose proof Hk as (H0 & _). destruct Ht' as [Htl _].
  exists r. split; [done|]. split; [done|]. split; [done|].
  rewrite <- (app_nil_r (token_bits t)).
  change [] with (bits emptyKey).
  apply bits_concat; [lia|lia|done|simpl; lia| | |].
  - intros i Hi. rewrite Hb by lia. by apply append_bit_low.
  - intros i Hi. rewrite Hb by lia. apply append_bit_token; (done || lia).
  - intros i Hi. lia.
Qed.

Lemma X4_Append_bits_witness :
  exists r,
    Append {| key_length := 4; key_value := [160] |}
      {| token_length := 4; token_value := 11 |} = Ret r
    /\ wf r
    /\ key_length r = 4 + 4
    /\ bits r = bits {| key_length := 4; key_value := [160] |}
                ++ token_bits {| token_length := 4; token_value := 11 |}.
Proof.
  apply (X4_Append_bits {| key_length := 4; key_value := [160] |}
           {| token_length := 4; token_value := 11 |}).
  - apply wfb_sound. vm_compute. reflexivity.
  - split; simpl; lia.
  - simpl. lia.
Defined.

(** X5.  [Token] reads back what [Append] wrote: under the hypotheses of
    X4, [k.Append(t).Token(k.length, t.length)] is [t.value]. *)
Theorem X5_Token_of_Append (k : Key) (t : Token) :
  wf k -> valid_token t -> key_length k mod 8 + token_length t <= 8 ->
  exists r,
    Append k t = Ret r
    /\ Key_Token r (key_length k) (token_length t) = Ret (token_value t).
Proof.
  intros Hk Ht Hal. pose proof (valid_token_is_token t Ht) as Ht'.
  destruct (Append_spec k t Hk Ht') as (r & E & Hl & Hw & Hb).
  pose proof Hk as (H0 & _). pose proof Ht' as [Htl _]. pose proof Ht as [_ Hv].
  exists r. split; [done|].
  destruct (Key_Token_spec r (key_length k) (token_length t))
    as (v & Ev & Hvr & Hvb); [done|lia|lia|done|lia|].
  rewrite Ev. f_equal.
  apply (token_eq_bits v (token_value t) (token_length t)); [lia|done|done|].
  intros j Hj. rewrite Hvb, Hb by lia.
  rewrite append_bit_token by (done || lia). f_equal. lia.
Qed.

Lemma X5_Token_of_Append_witness :
  exists r,
    Append {| key_length := 4; key_value := [160] |}
      {| token_length := 4; token_value := 11 |} = Ret r
    /\ Key_Token r 4 4 = Ret 11.
Proof.
  apply (X5_Token_of_Append {| key_length := 4; key_value := [160] |}
           {| token_length := 4; token_value := 11 |}).
  - apply wfb_sound. vm_compute. reflexivity.
  - split; simpl; lia.
  - simpl. lia.
Defined.

(** X6.  With an empty extension [AppendExtend] is [Append]: for a
    well-formed key and a token of one to eight bits,
    [k.AppendExtend(t, Key{})] and [k.Append(t)] return the same key. *)
Theorem X6_AppendExtend_empty (k : Key) (t : Token) :
  wf k -> is_token t ->
  exists r, Append k t = Ret r /\ AppendExtend k t emptyKey = Ret r.
Proof.
  intros Hk Ht.
  destruct (Append_spec k t Hk Ht) as (r & E & Hl & Hw & Hb).
  destruct (AppendExtend_spec k t emptyKey Hk Ht emptyKey_wf)
    as (r' & E' & Hl' & Hw' & Hb').
  exists r. split; [done|]. rewrite E'. f_equal.
  apply key_ext; [done..|simpl in Hl'; lia|].
  intros i Hi. rewrite Hb, Hb' by done.
  change (key_value emptyKey) with (replicate 0%nat 0).
  by rewrite bitAt_replicate, andb_false_r, orb_false_r.
Qed.

Lemma X6_AppendExtend_empty_witness :
  exists r,
    Append {| key_length := 7; key_value := [170] |}
      {| token_length := 2; token_value := 3 |} = Ret r
    /\ AppendExtend {| key_length := 7; key_value := [170] |}
         {| token_length := 2; token_value := 3 |} emptyKey = Ret r.
Proof.
  apply (X6_AppendExtend_empty {| key_length := 7; key_value := [170] |}
           {| token_length := 2; token_value := 3 |}).
  - apply wfb_sound. vm_compute. reflexivity.
  - split; [simpl; lia|unfold is_byte; simpl; lia].
Defined.

(** X7.  [Take] and [Skip] undo [AppendExtend]: for well-formed [k] and
    [e] and a token with a length in [{1,2,4,8}] and a value below
    [2 ^ length], taking the first [k.length] bits of
    [k.AppendExtend(t, e)] returns [k], and skipping its first
    [k.length + t.length] bits returns [e]. *)
Theorem X7_AppendExtend_Take_Skip (k : Key) (t : Token) (e : Key) :
  wf k -> valid_token t -> wf e ->
  exists r,
    AppendExtend k t e = Ret r
    /\ Take r (key_length k) = Ret k
    /\ Skip r (key_length k + token_length t) = Ret e.
Proof.
  intros Hk Ht He. pose proof (valid_token_is_token t Ht) as Ht'.
  destruct (AppendExtend_spec k t e Hk Ht' He) as (r & E & Hl & Hw & Hb).
  pose proof Hk as (H0 & _ & _ & Hkz). pose proof He as (He0 & _ & _ & Hez).
  pose proof Ht' as [Htl _].
  destruct (Take_spec r (key_length k) Hw H0) as (a & Ea & Hla & Hwa & Hba).
  destruct (Skip_spec r (key_length k + token_length t) Hw ltac:(lia))
    as (s & Es & Hls & Hws & Hbs).
  exists r. split; [done|]. split.
  - rewrite Ea. f_equal. apply key_ext; [done..|lia|].
    intros i Hi. rewrite Hba by done.
    destruct (Z.ltb_spec i (key_length k)); simpl.
    + rewrite Hb by done. rewrite append_bit_low by (done || lia).
      destruct (Z.leb_spec (key_length k + token_length t) i); [lia|].
      by rewrite orb_false_r.
    + symmetry. by apply Hkz.
  - rewrite Es. f_equal. apply key_ext; [done..|lia|].
    intros i Hi. rewrite Hbs by done. rewrite Hb by lia.
    rewrite append_bit_high by (done || lia).
    destruct (Z.leb_spec (key_length k + token_length t)
                (i + (key_length k + token_length t))); [|lia].
    simpl. f_equal. lia.
Qed.

Lemma X7_AppendExtend_Take_Skip_witness :
  exists r,
    AppendExtend {| key_length := 7; key_value := [170] |}
      {| token_length := 2; token_value := 3 |}
      {| key_length := 12; key_value := [205; 224] |} = Ret r
    /\ Take r 7 = Ret {| key_length := 7; key_value := [170] |}
    /\ Skip r (7 + 2) = Ret {| key_length := 12; key_value := [205; 224] |}.
Proof.
  apply (X7_AppendExtend_Take_Skip {| key_length := 7; key_value := [170] |}
           {| token_length := 2; token_value := 3 |}
           {| key_length := 12; key_value := [205; 224] |}).
  - apply wfb_sound. vm_compute. reflexivity.
  - split; simpl; lia.
  - apply wfb_sound. vm_compute. reflexivity.
Defined.

Lemma HasPrefix_true_iff k p :
  wf k -> wf p ->
  HasPrefix k p = Ret true
  <-> key_length p <= key_length k
      /\ forall i, 0 <= i < key_length p ->
           bitAt (key_value k) i = bitAt (key_value p) i.
Proof.
  intros Hk Hp. destruct (HasPrefix_spec k p Hk Hp) as (b & E & Hb).
  rewrite E, <- Hb. split; [by intros [= ->]|by intros ->].
Qed.

(** X8.  On well-formed keys [HasPrefix] is transitive and antisymmetric:
    a prefix of a prefix of [a] is a prefix of [a], and two keys that are
    prefixes of each other are equal. *)
Theorem X8_HasPrefix_order (a b c : Key) :
  wf a -> wf b -> wf c ->
  (HasPrefix a b = Ret true -> HasPrefix b c = Ret true ->
   HasPrefix a c = Ret true)
  /\ (HasPrefix a b = Ret true -> HasPrefix b a = Ret true -> a = b).
Proof.
  intros Ha Hb Hc. split.
  - rewrite !HasPrefix_true_iff by done. intros [Hl1 H1] [Hl2 H2].
    split; [lia|]. intros i Hi. rewrite H1 by lia. apply H2. lia.
  - rewrite !HasPrefix_true_iff by done. intros [Hl1 H1] [Hl2 H2].
    apply key_ext; [done..|lia|]. intros i Hi.
    destruct (Z.lt_ge_cases i (key_length a)) as [Hlt|Hge].
    + apply H1. lia.
    + destruct Ha as (_ & _ & _ & Hza), Hb as (_ & _ & _ & Hzb).
      rewrite Hza, Hzb by lia. done.
Qed.

Lemma X8_HasPrefix_order_witness :
  (HasPrefix (ToKey [171; 205]) (ToKey [171]) = Ret true ->
   HasPrefix (ToKey [171]) {| key_length := 3; key_value := [160] |} = Ret true ->
   HasPrefix (ToKey [171; 205]) {| key_length := 3; key_value := [160] |}
   = Ret true)
  /\ (HasPrefix (ToKey [171; 205]) (ToKey [171]) = Ret true ->
      HasPrefix (ToKey [171]) (ToKey [171; 205]) = Ret true ->
      ToKey [171; 205] = ToKey [171]).
Proof.
  apply (X8_HasPrefix_order (ToKey [171; 205]) (ToKey [171])
           {| key_length := 3; key_value := [160] |});
    apply wfb_sound; vm_compute; reflexivity.
Defined.

(** X9.  The prefixes of a key are what [Take] returns: for well-formed
    keys, [k.HasPrefix(p)] is true exactly when [k.Take(p.length)] is [p]. *)
Theorem X9_HasPrefix_iff_Take (k p : Key) :
  wf k -> wf p ->
  HasPrefix k p = Ret true <-> Take k (key_length p) = Ret p.
Proof.
  intros Hk Hp. rewrite HasPrefix_true_iff by done.
  pose proof Hp as (Hp0 & _ & _ & Hpz).
  destruct (Take_spec k (key_length p) Hk Hp0) as (r & E & Hl & Hw & Hb).
  rewrite E. split.
  - intros [Hle H]. f_equal. apply key_ext; [done..|lia|].
    intros i Hi. rewrite Hb by done.
    destruct (Z.ltb_spec i (key_length p)); simpl; [apply H; lia|].
    symmetry. by apply Hpz.
  - intros [= ->]. split; [lia|]. intros i Hi. rewrite Hb by lia.
    destruct (Z.ltb_spec i (key_length p)); [done|lia].
Qed.

Lemma X9_HasPrefix_iff_Take_witness :
  HasPrefix (ToKey [171; 205]) {| key_length := 12; key_value := [171; 192] |}
  = Ret true
  <-> Take (ToKey [171; 205])
        (key_length {| key_length := 12; key_value := [171; 192] |})
      = Ret {| key_length := 12; key_value := [171; 192] |}.
Proof.
  apply (X9_HasPrefix_iff_Take (ToKey [171; 205])
           {| key_length := 12; key_value := [171; 192] |});
    apply wfb_sound; vm_compute; reflexivity.
Defined.

Lemma bits_compare_extension x rest :
  rest <> [] -> bits_compare x (x ++ rest) = Lt.
Proof.
  intros Hr. induction x as [|[] x IH]; simpl; try done.
  by destruct rest.
Qed.

(** X10.  A strict prefix sorts first: for well-formed keys, when
    [k.HasStrictPrefix(p)] is true, [p.Less(k)] and [k.Greater(p)] are
    true. *)
Theorem X10_strict_prefix_is_Less (k p : Key) :
  wf k -> wf p -> HasStrictPrefix k p = Ret true ->
  Less p k = true /\ Greater k p = true.
Proof.
  intros Hk Hp H. rewrite Greater_Less. rewrite Less_bits by done.
  unfold HasStrictPrefix in H. destruct (Key_eqb k p) eqn:Eq; [done|].
  cbn [negb] in H. apply HasPrefix_true_iff in H; [|done..].
  pose proof Hk as (Hk0 & _). pose proof Hp as (Hp0 & _).
  apply bits_prefix_iff in H; [|done..]. destruct H as [rest Hrest].
  assert (bits_compare (bits p) (bits k) = Lt); [|done].
  rewrite Hrest. apply bits_compare_extension. intros ->.
  rewrite app_nil_r in Hrest. apply bits_inj in Hrest; [|done..].
  subst p. by rewrite (proj2 (Key_eqb_eq k k) eq_refl) in Eq.
Qed.

Lemma X10_strict_prefix_is_Less_witness :
  Less {| key_length := 12; key_value := [171; 192] |} (ToKey [171; 205]) = true
  /\ Greater (ToKey [171; 205]) {| key_length := 12; key_value := [171; 192] |}
     = true.
Proof.
  apply (X10_strict_prefix_is_Less (ToKey [171; 205])
           {| key_length := 12; key_value := [171; 192] |}).
  - apply wfb_sound. vm_compute. reflexivity.
  - apply wfb_sound. vm_compute. reflexivity.
  - reflexivity.
Defined.

Lemma strings_Compare_refl a : strings_Compare a a = Eq.
Proof. induction a as [|x a IH]; simpl; [done|]. by rewrite Z.compare_refl. Qed.

Lemma strings_Compare_Eq a b : strings_Compare a b = Eq -> a = b.
Proof.
  revert b. induction a as [|x a IH]; intros [|y b]; simpl; try done.
  destruct (x ?= y) eqn:E; try done. intros H.
  apply Z.compare_eq in E. subst y. f_equal. by apply IH.
Qed.

Lemma strings_Compare_Lt_trans a b c :
  strings_Compare a b = Lt -> strings_Compare b c = Lt ->
  strings_Compare a c = Lt.
Proof.
  revert b c. induction a as [|x a IH]; intros [|y b] [|z c]; simpl; try done.
  destruct (x ?= y) eqn:Exy, (y ?= z) eqn:Eyz; try done.
  - apply Z.compare_eq in Exy, Eyz. subst. rewrite Z.compare_refl. apply IH.
  - apply Z.compare_eq in Exy. subst. by rewrite Eyz.
  - apply Z.compare_eq in Eyz. subst. by rewrite Exy.
  - intros _ _. rewrite Z.compare_lt_iff in Exy, Eyz.
    assert (E : (x ?= z) = Lt) by (apply Z.compare_lt_iff; lia). by rewrite E.
Qed.

(** X11.  [Less] is a strict total order on keys and [Greater] is its
    converse: no key is less than itself, [Less] is transitive, of two
    different keys exactly one is less than the other, and
    [a.Greater(b)] is [b.Less(a)]. *)
Theorem X11_Less_strict_total_order (a b c : Key) :
  Less a a = false
  /\ (Less a b = true -> Less b c = true -> Less a c = true)
  /\ (Less a b = true \/ a = b \/ Less b a = true)
  /\ (Less a b = true -> a <> b /\ Less b a = false)
  /\ Greater a b = Less b a.
Proof.
  split; [|split; [|split; [|split]]].
  - unfold Less. rewrite strings_Compare_refl. apply Z.ltb_irrefl.
  - unfold Less.
    destruct (strings_Compare (key_value a) (key_value b)) eqn:Eab; try done;
      destruct (strings_Compare (key_value b) (key_value c)) eqn:Ebc; try done.
    + apply strings_Compare_Eq in Eab, Ebc. rewrite Eab, Ebc, strings_Compare_refl.
      rewrite !Z.ltb_lt. lia.
    + apply strings_Compare_Eq in Eab. rewrite Eab, Ebc. done.
    + apply strings_Compare_Eq in Ebc. rewrite <- Ebc, Eab. done.
    + by rewrite (strings_Compare_Lt_trans _ _ _ Eab Ebc).
  - unfold Less. rewrite (strings_Compare_antisym (key_value a) (key_value b)).
    destruct (strings_Compare (key_value a) (key_value b)) eqn:Eab; simpl; auto.
    apply strings_Compare_Eq in Eab.
    destruct (Z.ltb_spec (key_length a) (key_length b)); [auto|].
    destruct (Z.ltb_spec (key_length b) (key_length a)); [auto|].
    right. left. destruct a, b. simpl in *. f_equal; [lia|done].
  - unfold Less. rewrite (strings_Compare_antisym (key_value a) (key_value b)).
    destruct (strings_Compare (key_value a) (key_value b)) eqn:Eab; simpl; try done.
    + rewrite Z.ltb_lt. intros Hlt. split; [intros ->; lia|].
      apply Z.ltb_ge. lia.
    + intros _. split; [|done]. intros ->.
      by rewrite strings_Compare_refl in Eab.
  - apply Greater_Less.
Qed.

(** X12.  [shiftCopy] shifts a bit array left: for a shift of one to seven
    bits, a non-empty [src] and a [dst] as long as [src] or one byte
    shorter, [dst] is overwritten so that its bit [i] is bit [i + shift] of
    [src]; the bits past the end of [src] are zero. *)
Theorem X12_shiftCopy_shifts (dst src : list Z) (shift : Z) :
  Forall is_byte src -> 0 < shift < 8 ->
  1 <= len src -> len src - 1 <= len dst <= len src ->
  exists dst',
    shiftCopy dst src shift = Ret dst'
    /\ length dst' = length dst
    /\ Forall is_byte dst'
    /\ forall i, 0 <= i < 8 * len dst -> bitAt dst' i = bitAt src (i + shift).
Proof.
  intros Hs Hsh Hl Hd.
  destruct (shiftCopy_spec dst src shift Hs Hsh Hl Hd) as (dst' & E & Hl' & Hb & Hbits).
  exists dst'. split; [done|]. split; [done|]. split; [done|].
  intros i Hi. rewrite Hbits by lia.
  destruct (Z.ltb_spec i (8 * len dst)); [done|lia].
Qed.

Lemma X12_shiftCopy_shifts_witness :
  exists dst',
    shiftCopy [0; 0] [1; 2] 4 = Ret dst'
    /\ length dst' = length [0; 0]
    /\ Forall is_byte dst'
    /\ forall i, 0 <= i < 8 * len [0; 0] -> bitAt dst' i = bitAt [1; 2] (i + 4).
Proof.
  apply (X12_shiftCopy_shifts [0; 0] [1; 2] 4).
  - repeat constructor; unfold is_byte; lia.
  - lia.
  - unfold len. simpl. lia.
  - unfold len. simpl. lia.
Defined.

(** X13.  [Token] is bounds-checked on the buffer, not on the bit length:
    for [0 <= bitIndex] and [0 <= tokenBitSize <= 8] it panics exactly when
    byte [bitIndex / 8] is past the end of the buffer; and a token that lies
    in the padding of the last byte of a well-formed key (at or after
    [k.length], within one byte) is read as zero. *)
Theorem X13_Token_bounds (k : Key) (bitIndex tokenBitSize : Z) :
  0 <= bitIndex -> 0 <= tokenBitSize <= 8 ->
  (len (key_value k) <= bitIndex / 8 ->
   Key_Token k bitIndex tokenBitSize = Panic)
  /\ (bitIndex / 8 < len (key_value k) ->
      exists v, Key_Token k bitIndex tokenBitSize = Ret v)
  /\ (wf k -> key_length k <= bitIndex -> bitIndex / 8 < len (key_value k) ->
      1 <= tokenBitSize -> bitIndex mod 8 + tokenBitSize <= 8 ->
      Key_Token k bitIndex tokenBitSize = Ret 0).
Proof.
  intros Hi Hs. unfold Key_Token. rewrite quot8_div by done.
  assert (Hd1 : 0 <= dualBitIndex (Z.rem (bitIndex + tokenBitSize) 8))
    by (unfold dualBitIndex; lia).
  assert (Hd2 : 0 <= dualBitIndex tokenBitSize) by (unfold dualBitIndex; lia).
  split; [|split].
  - intros Hout. unfold index.
    destruct (Z.ltb_spec (bitIndex / 8) 0); [done|].
    destruct (Z.leb_spec (len (key_value k)) (bitIndex / 8)); [done|lia].
  - intros Hin. rewrite index_Ret by lia. cbn [bind].
    rewrite !shr8_Ret by done. cbn [bind]. by eexists.
  - intros Hk Hpad Hin Hs1 Hal.
    rewrite index_Ret by lia. cbn [bind]. rewrite !shr8_Ret by done. cbn [bind].
    f_equal. apply Z.bits_inj'. intros j Hj. rewrite Z.bits_0, Z.land_spec.
    rewrite !Z.shiftr_spec by done.
    assert (E1 : dualBitIndex (Z.rem (bitIndex + tokenBitSize) 8)
                 = 8 - (bitIndex mod 8 + tokenBitSize))
      by (unfold dualBitIndex; lia).
    assert (E2 : dualBitIndex tokenBitSize = 8 - tokenBitSize)
      by (unfold dualBitIndex; lia).
    rewrite E1, E2.
    destruct (Z.lt_ge_cases j tokenBitSize) as [Hlt|Hge].
    + destruct Hk as (_ & _ & _ & Hz).
      specialize (Hz (bitIndex + tokenBitSize - 1 - j) ltac:(lia)).
      unfold bitAt in Hz.
      replace ((bitIndex + tokenBitSize - 1 - j) / 8) with (bitIndex / 8) in Hz by lia.
      replace (7 - (bitIndex + tokenBitSize - 1 - j) mod 8)
        with (j + (8 - (bitIndex mod 8 + tokenBitSize))) in Hz by lia.
      by rewrite Hz.
    + rewrite (byte_testbit_high 255); [by rewrite andb_false_r|apply is_byte_255|lia].
Qed.

Lemma X13_Token_bounds_witness :
  (len (key_value {| key_length := 12; key_value := [171; 192] |}) <= 16 / 8 ->
   Key_Token {| key_length := 12; key_value := [171; 192] |} 16 4 = Panic)
  /\ (16 / 8 < len (key_value {| key_length := 12; key_value := [171; 192] |}) ->
      exists v,
        Key_Token {| key_length := 12; key_value := [171; 192] |} 16 4 = Ret v)
  /\ (wf {| key_length := 12; key_value := [171; 192] |} ->
      key_length {| key_length := 12; key_value := [171; 192] |} <= 16 ->
      16 / 8 < len (key_value {| key_length := 12; key_value := [171; 192] |}) ->
      1 <= 4 -> 16 mod 8 + 4 <= 8 ->
      Key_Token {| key_length := 12; key_value := [171; 192] |} 16 4 = Ret 0).
Proof.
  apply (X13_Token_bounds {| key_length := 12; key_value := [171; 192] |} 16 4); lia.
Defined.

(** X14.  Byte-aligned [Skip] and [Take] are byte slicing: for every byte
    string [bs] and every [n], [ToKey(bs).Skip(8 * n)] is [ToKey(bs[n:])]
    and [ToKey(bs).Take(8 * n)] is [ToKey(bs[:n])], where slicing past the
    end yields the empty and the whole string. *)
Theorem X14_aligned_Skip_Take (bs : list Z) (n : nat) :
  Skip (ToKey bs) (8 * Z.of_nat n) = Ret (ToKey (drop n bs))
  /\ Take (ToKey bs) (8 * Z.of_nat n) = Ret (ToKey (take n bs)).
Proof.
  unfold Skip, Take, ToKey, toKey, len. cbn [key_length key_value]. split.
  - destruct (Z.leb_spec (Z.of_nat (length bs) * 8) (8 * Z.of_nat n)).
    + rewrite drop_ge by lia. done.
    + rewrite slice_from_Ret by (unfold len; lia). cbn [bind].
      replace (Z.rem (8 * Z.of_nat n) 8) with 0 by lia.
      replace (Z.quot (8 * Z.of_nat n) 8) with (Z.of_nat n) by lia.
      simpl. rewrite Nat2Z.id, length_drop. do 2 f_equal. lia.
  - destruct (Z.leb_spec (Z.of_nat (length bs) * 8) (8 * Z.of_nat n)).
    + rewrite take_ge by lia. done.
    + replace (Z.rem (8 * Z.of_nat n) 8) with 0 by lia.
      replace (Z.quot (8 * Z.of_nat n) 8) with (Z.of_nat n) by lia.
      simpl. rewrite slice_to_Ret by (unfold len; lia). cbn [bind].
      rewrite Nat2Z.id, length_take. do 2 f_equal. lia.
Qed.

(** X15.  The four branch factors and their token sizes: [bf.Valid()] is
    nil exactly for 2, 4, 16 and 256; for these [bf.BitsPerToken()] is the
    logarithm of [bf], between one and eight, and [NewToken(val, bf)] with
    [val < bf] is a token whose value fits its length; for every other
    [bf], [BitsPerToken] is [-1]. *)
Theorem X15_BranchFactor_bits (bf : BranchFactor) :
  (BranchFactor_Valid bf = None <-> bf = 2 \/ bf = 4 \/ bf = 16 \/ bf = 256)
  /\ (BranchFactor_Valid bf = None ->
      1 <= BitsPerToken bf <= 8 /\ 2 ^ BitsPerToken bf = bf
      /\ forall val, 0 <= val < bf -> valid_token (NewToken val bf))
  /\ (BranchFactor_Valid bf <> None -> BitsPerToken bf = -1).
Proof.
  assert (Hiff : BranchFactor_Valid bf = None
                 <-> bf = 2 \/ bf = 4 \/ bf = 16 \/ bf = 256).
  { unfold BranchFactor_Valid, BranchFactor2, BranchFactor4, BranchFactor16,
      BranchFactor256.
    destruct (Z.eqb_spec bf 2), (Z.eqb_spec bf 4), (Z.eqb_spec bf 16),
      (Z.eqb_spec bf 256); simpl; split; try done; try tauto; lia. }
  split; [done|]. split.
  - intros Hv. pose proof (proj1 Hiff Hv) as Hbf.
    split; [|split].
    + destruct Hbf as [-> | [-> | [-> | ->]]]; vm_compute; split; discriminate.
    + destruct Hbf as [-> | [-> | [-> | ->]]]; reflexivity.
    + intros val Hval. by apply NewToken_valid.
  - intros Hv. unfold BitsPerToken, BranchFactor2, BranchFactor4, BranchFactor16,
      BranchFactor256.
    destruct (Z.eqb_spec bf 2); [exfalso; apply Hv, Hiff; tauto|].
    destruct (Z.eqb_spec bf 4); [exfalso; apply Hv, Hiff; tauto|].
    destruct (Z.eqb_spec bf 16); [exfalso; apply Hv, Hiff; tauto|].
    destruct (Z.eqb_spec bf 256); [exfalso; apply Hv, Hiff; tauto|]. done.
Qed.

(** X16.  The two descriptions of a token configuration agree:
    [t.Valid()] is nil exactly when [t.branchFactor] is a valid
    [BranchFactor] whose [BitsPerToken] is [t.bitsPerToken]; and then
    [t.ToToken(val)] is [NewToken(val, t.branchFactor)]. *)
Theorem X16_tokenConfiguration_Valid (t : tokenConfiguration) :
  (tokenConfiguration_Valid t = None
   <-> BranchFactor_Valid (branchFactor t) = None
       /\ BitsPerToken (branchFactor t) = bitsPerToken t)
  /\ (tokenConfiguration_Valid t = None ->
      forall val, ToToken t val = NewToken val (branchFactor t)).
Proof.
  assert (Hiff : tokenConfiguration_Valid t = None
                 <-> BranchFactor_Valid (branchFactor t) = None
                     /\ BitsPerToken (branchFactor t) = bitsPerToken t).
  { destruct t as [bf bits].
    unfold tokenConfiguration_Valid, validTokenConfigurations,
      tokenConfiguration_Valid_loop, tokenConfiguration_eqb,
      BranchFactor_Valid, BitsPerToken, BranchFactor2, BranchFactor4,
      BranchFactor16, BranchFactor256.
    cbn [branchFactor bitsPerToken BranchFactor2TokenConfig
         BranchFactor4TokenConfig BranchFactor16TokenConfig
         BranchFactor256TokenConfig].
    rewrite !(Z.eqb_sym _ bf), !(Z.eqb_sym _ bits).
    destruct (Z.eqb_spec bf 2) as [E2|], (Z.eqb_spec bf 4) as [E4|],
      (Z.eqb_spec bf 16) as [E16|], (Z.eqb_spec bf 256) as [E256|];
      try discriminate; try lia; simpl;
      destruct (Z.eqb_spec bits 1), (Z.eqb_spec bits 2), (Z.eqb_spec bits 4),
        (Z.eqb_spec bits 8); simpl; split; try done; try lia;
      intros [? ?]; try done; lia. }
  split; [done|]. intros Hv val. apply Hiff in Hv as [_ Hb].
  unfold ToToken, NewToken. by rewrite Hb.
Qed.

(** X22.  [bytesNeeded] and [dualBitIndex]: for [bits >= 0],
    [bytesNeeded(bits)] is the least number of bytes that hold [bits] bits;
    and on a shift of zero to eight bits, [dualBitIndex] is the distance to
    the next byte boundary: it lies in [[0,8)], adds up with the shift to a
    multiple of eight, and applying it twice gives the shift back once the
    shift is below eight. *)
Theorem X22_bytesNeeded_dualBitIndex (bits shift : Z) :
  0 <= bits -> 0 <= shift <= 8 ->
  (bits <= 8 * bytesNeeded bits /\ 8 * bytesNeeded bits < bits + 8)
  /\ 0 <= dualBitIndex shift < 8
  /\ (shift + dualBitIndex shift) mod 8 = 0
  /\ (shift < 8 -> dualBitIndex (dualBitIndex shift) = shift).
Proof.
  intros Hb Hs. rewrite bytesNeeded_spec by done. unfold dualBitIndex.
  split; [lia|]. split; [lia|]. split; lia.
Qed.

Lemma X22_bytesNeeded_dualBitIndex_witness :
  (9 <= 8 * bytesNeeded 9 /\ 8 * bytesNeeded 9 < 9 + 8)
  /\ 0 <= dualBitIndex 3 < 8
  /\ (3 + dualBitIndex 3) mod 8 = 0
  /\ (3 < 8 -> dualBitIndex (dualBitIndex 3) = 3).
Proof. apply (X22_bytesNeeded_dualBitIndex 9 3); lia. Defined.

Lemma shiftCopy_loop_Panic src shift dualShift n : forall i dst,
  0 <= shift -> 0 <= dualShift ->
  (i <= length dst)%nat -> (length dst < i + n)%nat ->
  Z.of_nat i + Z.of_nat n < len src ->
  shiftCopy_loop n (Z.of_nat i) dst src shift dualShift = Panic.
Proof.
  induction n as [|n IH]; intros i dst Hs Hd Hi Hn Hsrc; [lia|].
  cbn [shiftCopy_loop].
  rewrite index_Ret by lia. cbn [bind]. rewrite shl8_Ret by lia. cbn [bind].
  rewrite index_Ret by lia. cbn [bind]. rewrite shr8_Ret by lia. cbn [bind].
  destruct (decide (i = length dst)) as [->|Hne].
  - unfold store. destruct (Z.ltb_spec (Z.of_nat (length dst)) 0); [done|].
    unfold len. destruct (Z.leb_spec (Z.of_nat (length dst)) (Z.of_nat (length dst)));
      [done|lia].
  - rewrite store_Ret by (unfold len; lia). cbn [bind].
    replace (Z.of_nat i + 1) with (Z.of_nat (S i)) by lia.
    apply IH; [done|done|rewrite length_insert; lia|rewrite length_insert; lia|lia].
Qed.

(** X23.  [shiftCopy] panics when [dst] is more than one byte shorter than
    [src] (its documented assumption is [len(dst) >= len(src)-1]): for a
    shift of zero to eight bits the loop writes past the end of [dst]. *)
Theorem X23_shiftCopy_short_dst_panics (dst src : list Z) (shift : Z) :
  0 <= shift <= 8 -> len dst < len src - 1 ->
  shiftCopy dst src shift = Panic.
Proof.
  intros Hs Hl. unfold shiftCopy.
  pose proof (shiftCopy_loop_Panic src shift (dualBitIndex shift)
                (Z.to_nat (len src - 1)) 0 dst) as H.
  change (Z.of_nat 0) with 0 in H. rewrite H; [done|lia| |lia| |].
  - unfold dualBitIndex. lia.
  - unfold len in *. lia.
  - unfold len in *. lia.
Qed.

Lemma X23_shiftCopy_short_dst_panics_witness :
  shiftCopy [0] [1; 2; 3] 4 = Panic.
Proof.
  apply (X23_shiftCopy_short_dst_panics [0] [1; 2; 3] 4).
  - lia.
  - unfold len. simpl. lia.
Defined.

(** * Further properties of the proof iterator *)

Section ProofIteratorFacts.

Variable ID : Type.
Variable ids_Empty : ID.
Variable NodeBranchFactor : Z.

Lemma proofAt_Ret (nodes : list (ProofNode ID)) i :
  0 <= i < len nodes -> exists n, nodes !! Z.to_nat i = Some n /\ proofAt ID nodes i = Ret n.
Proof.
  intros Hi. unfold proofAt.
  destruct (Z.ltb_spec i 0); [lia|]. destruct (Z.leb_spec (len nodes) i); [lia|].
  simpl. destruct (nodes !! Z.to_nat i) as [n|] eqn:E; [by exists n|].
  apply lookup_ge_None in E. unfold len in *. lia.
Qed.

Lemma populatePaths_lookup (nodes : list (ProofNode ID)) : forall i m j,
  populatePaths ID nodes i m !! j =
    if decide (i <= j < i + len nodes)
    then KeyPath ID <$> nodes !! Z.to_nat (j - i)
    else m !! j.
Proof.
  induction nodes as [|node rest IH]; intros i m j.
  - simpl. case_decide; [unfold len in *; simpl in *; lia|done].
  - cbn [populatePaths]. rewrite IH. unfold len in *. cbn [length].
    destruct (decide (j = i)) as [->|Hne].
    + rewrite decide_False by lia. rewrite decide_True by lia.
      rewrite lookup_insert_eq. by replace (Z.to_nat (i - i)) with 0%nat by lia.
    + rewrite lookup_insert_ne by done.
      repeat case_decide; try lia; [|done].
      replace (Z.to_nat (j - i)) with (S (Z.to_nat (j - (i + 1)))) by lia. done.
Qed.

Lemma getPath_populatePaths (nodes : list (ProofNode ID)) j n :
  nodes !! j = Some n ->
  getPath (populatePaths ID nodes 0 ∅) (Z.of_nat j) = KeyPath ID n.
Proof.
  intros E. unfold getPath. rewrite populatePaths_lookup.
  pose proof (lookup_lt_Some _ _ _ E). unfold len.
  rewrite decide_True by lia.
  replace (Z.to_nat (Z.of_nat j - 0)) with j by lia. by rewrite E.
Qed.

Lemma growing_lookup (nodes : list (ProofNode ID)) j a b :
  growing nodes = true -> nodes !! j = Some a -> nodes !! S j = Some b ->
  (length (KeyPath ID a) < length (KeyPath ID b))%nat.
Proof.
  revert j. induction nodes as [|n0 rest IH]; intros j Hg Ha Hb; [done|].
  cbn [growing] in Hg. apply andb_true_iff in Hg as [Hh Ht].
  destruct j as [|j].
  - simpl in Ha, Hb. injection Ha as ->. destruct rest as [|n1 rest]; [done|].
    simpl in Hb. injection Hb as ->. by apply Nat.ltb_lt.
  - simpl in Ha, Hb. by apply (IH j).
Qed.

Lemma populateBranches_Ret (nodes : list (ProofNode ID)) paths :
  growing nodes = true ->
  (forall j n, nodes !! j = Some n -> getPath paths (Z.of_nat j) = KeyPath ID n) ->
  forall n i branch idsOf,
    ((0 < n)%nat -> Z.of_nat i + Z.of_nat n <= len nodes - 1) ->
    exists branch' idsOf',
      populateBranches ID ids_Empty n (Z.of_nat i) nodes paths branch idsOf
        = Ret (branch', idsOf')
      /\ (forall j, j <= Z.of_nat i -> idsOf' !! j = idsOf !! j)
      /\ (forall j, j < Z.of_nat i -> branch' !! j = branch !! j)
      /\ (forall j a b, (i <= j < i + n)%nat ->
           nodes !! j = Some a -> nodes !! S j = Some b ->
           branch' !! Z.of_nat j
           = Some (nth (length (KeyPath ID a)) (KeyPath ID b) 0)).
Proof.
  intros Hg Hp. induction n as [|n IH]; intros i branch idsOf Hi.
  - exists branch, idsOf. split; [done|]. split; [done|]. split; [done|].
    intros j a b Hj. lia.
  - cbn [populateBranches]. specialize (Hi ltac:(lia)).
    destruct (proofAt_Ret nodes (Z.of_nat i)) as (a & Ea & Eat); [lia|].
    destruct (proofAt_Ret nodes (Z.of_nat (S i))) as (b & Eb & _); [lia|].
    rewrite !Nat2Z.id in *.
    replace (Z.of_nat i + 1) with (Z.of_nat (S i)) by lia.
    rewrite (Hp _ _ Ea), (Hp _ _ Eb).
    pose proof (growing_lookup nodes i a b Hg Ea Eb) as Hlt.
    rewrite index_Ret by (unfold len; lia). cbn [bind]. rewrite Eat. cbn [bind].
    edestruct (IH (S i)) as (b' & i' & E & Hids & Hbr & Hbn); [lia|].
    exists b', i'. split; [exact E|]. split; [|split].
    + intros j Hj. rewrite Hids by lia. apply lookup_insert_ne. lia.
    + intros j Hj. rewrite Hbr by lia. apply lookup_insert_ne. lia.
    + intros j a' b0 Hj Ha' Hb0. destruct (decide (j = i)) as [->|Hne].
      * rewrite Hbr by lia. rewrite lookup_insert_eq.
        assert (a' = a) as -> by congruence. assert (b0 = b) as -> by congruence.
        unfold len. by rewrite Nat2Z.id.
      * apply (Hbn j a' b0); [lia|done..].
Qed.

Lemma newProofIterator_Ret (nodes : list (ProofNode ID)) start :
  growing nodes = true ->
  exists branch idsOf,
    newProofIterator ID ids_Empty NodeBranchFactor nodes start
    = Ret (findFirst ID NodeBranchFactor nodes 0
             (mkProofIterator ID EmptyPath ids_Empty false 0 ∅ nodes
                (populatePaths ID nodes 0 ∅) branch idsOf) start)
    /\ idsOf !! 0 = None
    /\ (forall j a b, nodes !! j = Some a -> nodes !! S j = Some b ->
        getIndex branch (Z.of_nat j)
        = nth (length (KeyPath ID a)) (KeyPath ID b) 0).
Proof.
  intros Hg. unfold newProofIterator.
  destruct (populateBranches_Ret nodes (populatePaths ID nodes 0 ∅) Hg
              (getPath_populatePaths nodes) (Z.to_nat (len nodes - 1)) 0 ∅ ∅)
    as (branch & idsOf & E & Hids & _ & Hbn); [unfold len; lia|].
  change (Z.of_nat 0) with 0 in *. rewrite E. cbn [bind].
  exists branch, idsOf. split; [done|]. split; [by rewrite Hids|].
  intros j a b Ha Hb. unfold getIndex.
  rewrite (Hbn j a b); [done| |done..].
  apply lookup_lt_Some in Hb. unfold len. lia.
Qed.


Lemma findNextChild_found n : forall j node r,
  findNextChild ID n j node = r -> r <> 0 ->
  is_Some (Children ID node !! to_byte r).
Proof.
  induction n as [|n IH]; intros j node r E Hr; [simpl in E; congruence|].
  cbn [findNextChild] in E.
  destruct (Children ID node !! to_byte j) eqn:Ec; [subst r; by rewrite Ec|].
  by apply (IH (j + 1)).
Qed.

Lemma tokens_below_lookup (nodes : list (ProofNode ID)) j node :
  tokens_below NodeBranchFactor nodes = true -> nodes !! j = Some node ->
  Children ID node !! to_byte NodeBranchFactor = None.
Proof.
  unfold tokens_below. rewrite forallb_forall. intros H E.
  specialize (H node). destruct (Children ID node !! to_byte NodeBranchFactor);
    [|done].
  exfalso. assert (false = true); [|done]. apply H.
  apply list_elem_of_In, list_elem_of_lookup. by exists j.
Qed.

(** One call of [Next] on a live iterator. *)
Lemma Next_live (i : proofIterator ID) :
  live i ->
  exists node i',
    proof ID i !! Z.to_nat (nodeIndex ID i) = Some node
    /\ Next ID ids_Empty NodeBranchFactor i = Ret (true, i')
    /\ key ID i' = pendingKey i
    /\ (nextChildIndex ID i !! nodeIndex ID i = None ->
        value ID i' = getID ID ids_Empty (nodeToID ID i) (nodeIndex ID i))
    /\ proof ID i' = proof ID i
    /\ (live i'
        \/ exists n j, findNextChild ID n j node = NodeBranchFactor).
Proof.
  intros [Hex Hni]. unfold Next. rewrite Hex.
  destruct (proofAt_Ret (proof ID i) (nodeIndex ID i) Hni) as (node & En & Eat).
  rewrite Eat. cbn [bind]. exists node.
  set (visited := bool_decide (is_Some (nextChildIndex ID i !! nodeIndex ID i))).
  set (childIdx := if visited then -1 else getIndex (nextChildIndex ID i) (nodeIndex ID i)).
  set (nextChild := findNextChild ID (Z.to_nat (NodeBranchFactor - childIdx))
                      (childIdx + 1) node).
  set (key' := if negb visited then getPath (nodeToPath ID i) (nodeIndex ID i)
               else path_Append (getPath (nodeToPath ID i) (nodeIndex ID i))
                      (to_byte (getIndex (nextChildIndex ID i) (nodeIndex ID i)))).
  assert (Hkey : key' = pendingKey i).
  { unfold key', visited, pendingKey, getIndex.
    by destruct (nextChildIndex ID i !! nodeIndex ID i). }
  assert (Hval : nextChildIndex ID i !! nodeIndex ID i = None -> visited = false).
  { intros Ec. unfold visited. by rewrite Ec. }
  assert (Hdesc : exists descended,
    (if negb (nodeIndex ID i =? len (proof ID i) - 1)
        && (getIndex (nodeToBranchIndex ID i) (nodeIndex ID i) =? to_byte childIdx)
     then let! next := proofAt ID (proof ID i) (nodeIndex ID i + 1) in
          Ret (0 <? Z.of_nat (size (Children ID next)))
     else Ret false) = Ret descended
    /\ (descended = true -> nodeIndex ID i + 1 < len (proof ID i))).
  { destruct (Z.eqb_spec (nodeIndex ID i) (len (proof ID i) - 1)) as [|Hne];
      cbn [negb andb]; [by exists false|].
    destruct (getIndex (nodeToBranchIndex ID i) (nodeIndex ID i) =? to_byte childIdx);
      [|by exists false].
    destruct (proofAt_Ret (proof ID i) (nodeIndex ID i + 1)) as (next & _ & E);
      [lia|].
    rewrite E. cbn [bind]. eexists. split; [done|]. intros _. lia. }
  destruct Hdesc as (descended & Ed & Hd). rewrite Ed. cbn [bind].
  destruct descended; cbn [negb andb].
  - eexists. split; [done|]. split; [done|]. cbn [key value proof].
    split; [done|]. split; [intros Ec; by rewrite (Hval Ec)|]. split; [done|].
    left. split; cbn [exhausted nodeIndex proof]; [done|]. specialize (Hd eq_refl). lia.
  - destruct (Z.eqb_spec nextChild NodeBranchFactor) as [Enc|Hnc].
    + destruct (nodeIndex ID i =? 0); (eexists; split; [done|]; split; [done|];
        cbn [key value proof]; split; [done|];
        split; [intros Ec; by rewrite (Hval Ec)|]; split; [done|]; right;
        by exists (Z.to_nat (NodeBranchFactor - childIdx)), (childIdx + 1)).
    + eexists. split; [done|]. split; [done|]. cbn [key value proof].
      split; [done|]. split; [intros Ec; by rewrite (Hval Ec)|]. split; [done|].
      left. split; cbn [exhausted nodeIndex proof]; [done|lia].
Qed.


Lemma scanChildren_Some n : forall c (iter : proofIterator ID) i node nodePath start r,
  0 <= c -> c + Z.of_nat n <= 256 ->
  scanChildren ID n c iter i node nodePath start = Some r ->
  exhausted ID r = exhausted ID iter
  /\ proof ID r = proof ID iter
  /\ nodeToPath ID r = nodeToPath ID iter
  /\ exists c',
       0 <= c' <= 256
       /\ nextChildIndex ID r = <[i := c']> (nextChildIndex ID iter)
       /\ ((nodeIndex ID r = nodeIndex ID iter + 1
            /\ i <> len (proof ID iter) - 1
            /\ path_Compare start (getPath (nodeToPath ID iter) (i + 1)) <= 0)
           \/ (nodeIndex ID r = nodeIndex ID iter
               /\ c' < 256
               /\ path_Compare start (path_Append nodePath c') <= 0)).
Proof.
  induction n as [|n IH]; intros c iter i node nodePath start r Hc Hn E; [done|].
  cbn [scanChildren] in E.
  destruct (Children ID node !! c); [|apply (IH (c + 1)) in E; [done|lia..]].
  set (childIsNode := negb (i =? len (proof ID iter) - 1)
                      && (getIndex (nodeToBranchIndex ID iter) i =? c)) in E.
  destruct (Z.leb_spec
              (path_Compare start
                 (if childIsNode then getPath (nodeToPath ID iter) (i + 1)
                  else path_Append nodePath c)) 0) as [Hle|Hgt];
    [|apply (IH (c + 1)) in E; [done|lia..]].
  destruct childIsNode eqn:Ecn; injection E as <-; cbn.
  - split; [done|]. split; [done|]. split; [done|]. exists (c + 1).
    split; [lia|]. split; [done|]. left. split; [done|]. split; [|done].
    unfold childIsNode in Ecn. apply andb_true_iff in Ecn as [Hne _].
    destruct (Z.eqb_spec i (len (proof ID iter) - 1)); [done|lia].
  - split; [done|]. split; [done|]. split; [done|]. exists c.
    split; [lia|]. split; [done|]. right. split; [done|]. split; [lia|done].
Qed.

Lemma to_byte_small c : 0 <= c < 256 -> to_byte c = c.
Proof. intros Hc. unfold to_byte. lia. Qed.

Lemma findFirst_first (nodes : list (ProofNode ID)) : forall i (iter : proofIterator ID) start,
  0 <= NodeBranchFactor <= 256 ->
  0 <= i -> i + len nodes = len (proof ID iter) ->
  exhausted ID iter = false ->
  (forall j, i <= j -> nextChildIndex ID iter !! j = None) ->
  let r := findFirst ID NodeBranchFactor nodes i iter start in
  proof ID r = proof ID iter
  /\ (exhausted ID r = true
      \/ (live r /\ path_Compare start (pendingKey r) <= 0)).
Proof.
  induction nodes as [|node rest IH]; intros i iter start Hb Hi Hlen Hex Hnone.
  - cbn. split; [done|]. by left.
  - cbn [findFirst]. unfold len in Hlen. cbn [length] in Hlen.
    cbn zeta.
    cbn [key value exhausted nodeIndex nextChildIndex proof nodeToPath
         nodeToBranchIndex nodeToID].
    destruct (Z.leb_spec (path_Compare start (getPath (nodeToPath ID iter) i)) 0)
      as [Hle|Hgt].
    { split; [done|]. right. split.
      - split; cbn; [done|unfold len; lia].
      - unfold pendingKey. cbn. by rewrite Hnone by lia. }
    match goal with
    | |- context [scanChildren ID ?n 0 ?it i node ?p start] =>
        destruct (scanChildren ID n 0 it i node p start) as [r|] eqn:Es
    end.
    + apply scanChildren_Some in Es; [|lia..].
      destruct Es as (Hex' & Hp & Hpaths & c' & Hc' & Hm & Hcase).
      cbn in Hex', Hp, Hpaths, Hm, Hcase.
      split; [done|]. right.
      destruct Hcase as [(Hni & Hnl & Hcmp) | (Hni & Hc256 & Hcmp)].
      * split.
        -- split; [congruence|]. rewrite Hni, Hp. unfold len in *. lia.
        -- unfold pendingKey. rewrite Hm, Hni, Hpaths.
           rewrite lookup_insert_ne by lia. by rewrite Hnone by lia.
      * split.
        -- split; [congruence|]. rewrite Hni, Hp. unfold len in *. lia.
        -- unfold pendingKey. rewrite Hm, Hni, Hpaths, lookup_insert_eq.
           by rewrite to_byte_small by lia.
    + match goal with
      | |- context [findFirst ID NodeBranchFactor rest (i + 1) ?it start] =>
          destruct (IH (i + 1) it start) as [Hp Hr]
      end; cbn; [done|lia|unfold len in *; lia|done| |].
      * intros j Hj. rewrite lookup_insert_ne by lia. apply Hnone. lia.
      * split; [done|]. done.
Qed.


Lemma scanChildren_None n : forall c (iter : proofIterator ID) i node nodePath start,
  scanChildren ID n c iter i node nodePath start = None ->
  forall c', c <= c' < c + Z.of_nat n -> is_Some (Children ID node !! c') ->
    path_Compare start
      (if negb (i =? len (proof ID iter) - 1)
          && (getIndex (nodeToBranchIndex ID iter) i =? c')
       then getPath (nodeToPath ID iter) (i + 1)
       else path_Append nodePath c') > 0.
Proof.
  induction n as [|n IH]; intros c iter i node nodePath start E c' Hc' Hin; [lia|].
  cbn [scanChildren] in E.
  destruct (decide (c' = c)) as [->|Hne].
  - destruct Hin as [x Hx]. rewrite Hx in E.
    match type of E with
    | (if ?b then _ else _) = None => destruct b eqn:Eb
    end.
    + by destruct (negb _ && _) in E.
    + apply Z.leb_gt in Eb. lia.
  - assert (Hrec : scanChildren ID n (c + 1) iter i node nodePath start = None).
    { destruct (Children ID node !! c); [|done].
      match type of E with
      | (if ?b then _ else _) = None => destruct b; [|done]
      end.
      by destruct (negb _ && _) in E. }
    apply (IH (c + 1) iter i node nodePath start Hrec); [lia|done].
Qed.

Lemma findFirst_exhausted (nodes : list (ProofNode ID)) :
  forall i (iter : proofIterator ID) start,
  0 <= NodeBranchFactor <= 256 ->
  exhausted ID iter = false ->
  exhausted ID (findFirst ID NodeBranchFactor nodes i iter start) = true ->
  forall j n, nodes !! j = Some n ->
    path_Compare start (getPath (nodeToPath ID iter) (i + Z.of_nat j)) > 0
    /\ forall c, 0 <= c < NodeBranchFactor -> is_Some (Children ID n !! c) ->
         path_Compare start
           (if negb (i + Z.of_nat j =? len (proof ID iter) - 1)
               && (getIndex (nodeToBranchIndex ID iter) (i + Z.of_nat j) =? c)
            then getPath (nodeToPath ID iter) (i + Z.of_nat j + 1)
            else path_Append (getPath (nodeToPath ID iter) (i + Z.of_nat j)) c) > 0.
Proof.
  induction nodes as [|node rest IH]; intros i iter start Hb Hex Hr j n Hj; [done|].
  cbn [findFirst] in Hr. cbn zeta in Hr.
  cbn [key value exhausted nodeIndex nextChildIndex proof nodeToPath
       nodeToBranchIndex nodeToID] in Hr.
  destruct (Z.leb_spec (path_Compare start (getPath (nodeToPath ID iter) i)) 0)
    as [Hle|Hgt]; [cbn in Hr; congruence|].
  match type of Hr with
  | context [scanChildren ID ?m 0 ?it i node ?p start] =>
      destruct (scanChildren ID m 0 it i node p start) as [r|] eqn:Es
  end.
  { apply scanChildren_Some in Es; [|lia..]. destruct Es as (Hex' & _).
    cbn in Hex'. congruence. }
  destruct j as [|j].
  - simpl in Hj. injection Hj as <-. replace (i + Z.of_nat 0) with i by lia.
    split; [lia|]. intros c Hc Hin.
    apply (scanChildren_None _ _ _ _ _ _ _ Es c); [lia|done].
  - simpl in Hj.
    replace (i + Z.of_nat (S j)) with (i + 1 + Z.of_nat j) by lia.
    match type of Hr with
    | context [findFirst ID NodeBranchFactor rest (i + 1) ?it start] =>
        apply (IH (i + 1) it start Hb Hex Hr j n Hj)
    end.
Qed.

(** X21.  The iterator is built exhausted only when nothing is left: under
    the hypotheses of X18, when the constructor returns an exhausted
    iterator, the start key is after the path of every node of the proof,
    and after the key of every child with a token below the branch factor
    that does not lead to the next node of the proof. *)
Theorem X21_exhausted_means_all_before (nodes : list (ProofNode ID)) (start : path) :
  0 <= NodeBranchFactor <= 256 -> growing nodes = true ->
  exists it,
    newProofIterator ID ids_Empty NodeBranchFactor nodes start = Ret it
    /\ (exhausted ID it = true ->
        forall j n, nodes !! j = Some n ->
          path_Compare start (KeyPath ID n) > 0
          /\ forall c, 0 <= c < NodeBranchFactor ->
               is_Some (Children ID n !! c) ->
               path_Compare start (path_Append (KeyPath ID n) c) > 0
               \/ exists next,
                    nodes !! S j = Some next
                    /\ nth (length (KeyPath ID n)) (KeyPath ID next) 0 = c).
Proof.
  intros Hb Hg.
  destruct (newProofIterator_Ret nodes start Hg) as (branch & idsOf & E & _ & Hbr).
  rewrite E. eexists. split; [done|]. intros Hex j n Hj.
  match type of Hex with
  | context [findFirst ID NodeBranchFactor nodes 0 ?it start] =>
      destruct (findFirst_exhausted nodes 0 it start Hb eq_refl Hex j n Hj)
        as [Hn Hc]
  end.
  cbn [proof nodeToPath nodeToBranchIndex] in Hn, Hc.
  replace (0 + Z.of_nat j) with (Z.of_nat j) in * by lia.
  rewrite (getPath_populatePaths nodes j n Hj) in Hn, Hc.
  split; [done|]. intros c Hcr Hin. specialize (Hc c Hcr Hin).
  destruct (Z.eqb_spec (Z.of_nat j) (len nodes - 1)) as [Hlast|Hnl];
    cbn [negb andb] in Hc; [by left|].
  destruct (Z.eqb_spec (getIndex branch (Z.of_nat j)) c) as [Hbc|Hbc]; [|by left].
  right. destruct (nodes !! S j) as [next|] eqn:En.
  - exists next. split; [done|]. by rewrite <- (Hbr j n next Hj En).
  - apply lookup_ge_None in En. apply lookup_lt_Some in Hj. unfold len in *. lia.
Qed.

(** X17.  [Next] never reports the end: when [NodeBranchFactor] is not
    zero and no node of the proof has a child under the token
    [NodeBranchFactor] (children are indexed below the branch factor), a
    call of [Next] on an iterator that is not exhausted and points at a node
    of its proof returns true with the pending key and leaves such an
    iterator; so every number of calls returns that many pairs. *)
Theorem X17_Next_never_exhausts (i : proofIterator ID) :
  NodeBranchFactor <> 0 ->
  tokens_below NodeBranchFactor (proof ID i) = true ->
  live i ->
  (exists i',
     Next ID ids_Empty NodeBranchFactor i = Ret (true, i')
     /\ key ID i' = pendingKey i
     /\ proof ID i' = proof ID i
     /\ live i')
  /\ forall n, exists l,
       emitted ID ids_Empty NodeBranchFactor n i = Ret l /\ length l = n.
Proof.
  intros Hnz Htb Hlive.
  assert (Hstep : forall j : proofIterator ID,
            tokens_below NodeBranchFactor (proof ID j) = true -> live j ->
            exists j',
              Next ID ids_Empty NodeBranchFactor j = Ret (true, j')
              /\ key ID j' = pendingKey j
              /\ proof ID j' = proof ID j
              /\ live j').
  { intros j Hj Hl.
    destruct (Next_live j Hl) as (node & j' & En & E & Hk & _ & Hp & Hcase).
    exists j'. split; [done|]. split; [done|]. split; [done|].
    destruct Hcase as [|(n & c & Ef)]; [done|exfalso].
    destruct (findNextChild_found n c node _ Ef Hnz) as [x Hx].
    by rewrite (tokens_below_lookup _ _ _ Hj En) in Hx. }
  split; [by apply Hstep|]. intros n. revert i Htb Hlive.
  induction n as [|n IH]; intros i Htb Hlive; [by exists []|].
  destruct (Hstep i Htb Hlive) as (i' & E & _ & Hp & Hl').
  destruct (IH i') as (l & El & Hll); [by rewrite Hp|done|].
  cbn [emitted]. rewrite E. cbn [bind]. rewrite El. cbn [bind].
  eexists. split; [done|]. simpl. by rewrite Hll.
Qed.

(** X18.  The first key is never before the start key: for a branch factor
    of at most 256 and a proof whose node paths get longer from node to node
    (possibly empty), the constructor returns an iterator over that proof
    that either is exhausted, and then [Next] returns false with the empty
    path, or whose first call of [Next] returns true with a key that is not
    before [start]. *)
Theorem X18_first_key_not_before_start (nodes : list (ProofNode ID)) (start : path) :
  0 <= NodeBranchFactor <= 256 -> growing nodes = true ->
  exists it,
    newProofIterator ID ids_Empty NodeBranchFactor nodes start = Ret it
    /\ proof ID it = nodes
    /\ ((exhausted ID it = true
         /\ exists it',
              Next ID ids_Empty NodeBranchFactor it = Ret (false, it')
              /\ key ID it' = EmptyPath)
        \/ (exhausted ID it = false
            /\ exists it',
                 Next ID ids_Empty NodeBranchFactor it = Ret (true, it')
                 /\ path_Compare start (key ID it') <= 0)).
Proof.
  intros Hb Hg.
  destruct (newProofIterator_Ret nodes start Hg) as (branch & idsOf & E & _ & _).
  rewrite E. eexists. split; [done|].
  match goal with
  | |- context [findFirst ID NodeBranchFactor nodes 0 ?it start] =>
      destruct (findFirst_first nodes 0 it start) as [Hp Hr];
        [done|lia|cbn; lia|done|done|]
  end.
  cbn zeta in Hp, Hr. cbn [proof] in Hp.
  split; [done|]. destruct Hr as [Hex|[Hl Hcmp]].
  - left. split; [done|]. unfold Next. rewrite Hex. by eexists.
  - right. split; [apply Hl|].
    destruct (Next_live _ Hl) as (node & it' & _ & En & Hk & _).
    exists it'. split; [done|]. by rewrite Hk.
Qed.

(** X19.  The root comes first, without a digest: for a non-empty proof
    whose node paths get longer from node to node and a start key that is
    not after the path of the first node (as the empty start key), the first
    call of [Next] returns that path with the zero digest [ids.Empty]. *)
Theorem X19_root_first (n0 : ProofNode ID) (rest : list (ProofNode ID))
    (start : path) :
  growing (n0 :: rest) = true ->
  path_Compare start (KeyPath ID n0) <= 0 ->
  exists it it',
    newProofIterator ID ids_Empty NodeBranchFactor (n0 :: rest) start = Ret it
    /\ Next ID ids_Empty NodeBranchFactor it = Ret (true, it')
    /\ key ID it' = KeyPath ID n0
    /\ value ID it' = ids_Empty.
Proof.
  intros Hg Hcmp.
  destruct (newProofIterator_Ret (n0 :: rest) start Hg)
    as (branch & idsOf & E & Hid & _).
  rewrite E.
  assert (Hp0 : getPath (populatePaths ID (n0 :: rest) 0 ∅) 0 = KeyPath ID n0)
    by (by apply (getPath_populatePaths (n0 :: rest) 0%nat n0)).
  cbn [findFirst]. cbn zeta.
  cbn [key value exhausted nodeIndex nextChildIndex proof nodeToPath
       nodeToBranchIndex nodeToID].
  rewrite Hp0. destruct (Z.leb_spec (path_Compare start (KeyPath ID n0)) 0); [|lia].
  match goal with
  | |- exists it it', Ret ?i0 = _ /\ _ =>
      destruct (Next_live i0) as (node & it' & _ & En & Hk & Hv & _);
        [split; cbn; [done|unfold len; simpl; lia]|];
        exists i0, it'
  end.
  split; [done|]. split; [done|]. split.
  - rewrite Hk. unfold pendingKey. cbn [nextChildIndex nodeIndex nodeToPath].
    by rewrite lookup_empty, Hp0.
  - rewrite Hv by (cbn [nextChildIndex nodeIndex]; apply lookup_empty).
    cbn [nodeToID nodeIndex]. unfold getID. by rewrite Hid.
Qed.

(** X20.  The constructor panics on a proof whose second node has a path
    that is not longer than the path of the first: the branch index
    [nextPath[len(myPath)]] is out of range. *)
Theorem X20_constructor_panics (n0 n1 : ProofNode ID) (rest : list (ProofNode ID))
    (start : path) :
  (length (KeyPath ID n1) <= length (KeyPath ID n0))%nat ->
  newProofIterator ID ids_Empty NodeBranchFactor (n0 :: n1 :: rest) start = Panic.
Proof.
  intros Hle. unfold newProofIterator.
  replace (Z.to_nat (len (n0 :: n1 :: rest) - 1)) with (S (length rest))
    by (unfold len; simpl; lia).
  cbn [populateBranches].
  assert (H0 : getPath (populatePaths ID (n0 :: n1 :: rest) 0 ∅) 0
               = KeyPath ID n0)
    by apply (getPath_populatePaths (n0 :: n1 :: rest) 0%nat n0 eq_refl).
  assert (H1 : getPath (populatePaths ID (n0 :: n1 :: rest) 0 ∅) (0 + 1)
               = KeyPath ID n1)
    by apply (getPath_populatePaths (n0 :: n1 :: rest) 1%nat n1 eq_refl).
  rewrite H0, H1. unfold index, len.
  destruct (Z.ltb_spec (Z.of_nat (length (KeyPath ID n0))) 0); [done|].
  destruct (Z.leb_spec (Z.of_nat (length (KeyPath ID n1)))
              (Z.of_nat (length (KeyPath ID n0)))); [done|lia].
Qed.

End ProofIteratorFacts.

Lemma X17_Next_never_exhausts_witness :
  (exists i',
     Next Z 0 16 rootIterator0 = Ret (true, i')
     /\ key Z i' = pendingKey rootIterator0
     /\ proof Z i' = proof Z rootIterator0
     /\ live i')
  /\ forall n, exists l, emitted Z 0 16 n rootIterator0 = Ret l /\ length l = n.
Proof.
  apply (X17_Next_never_exhausts Z 0 16 rootIterator0).
  - lia.
  - reflexivity.
  - split; [reflexivity|]. split; vm_compute; congruence.
Defined.

Lemma X18_first_key_not_before_start_witness :
  exists it,
    newProofIterator Z 0 16 [rootNode; innerNode] [0; 3] = Ret it
    /\ proof Z it = [rootNode; innerNode]
    /\ ((exhausted Z it = true
         /\ exists it', Next Z 0 16 it = Ret (false, it') /\ key Z it' = EmptyPath)
        \/ (exhausted Z it = false
            /\ exists it',
                 Next Z 0 16 it = Ret (true, it')
                 /\ path_Compare [0; 3] (key Z it') <= 0)).
Proof.
  apply (X18_first_key_not_before_start Z 0 16 [rootNode; innerNode] [0; 3]).
  - lia.
  - reflexivity.
Defined.

Lemma X19_root_first_witness :
  exists it it',
    newProofIterator Z 0 16 [rootNode; innerNode] EmptyPath = Ret it
    /\ Next Z 0 16 it = Ret (true, it')
    /\ key Z it' = KeyPath Z rootNode
    /\ value Z it' = 0.
Proof.
  apply (X19_root_first Z 0 16 rootNode [innerNode] EmptyPath).
  - reflexivity.
  - vm_compute. congruence.
Defined.

Lemma X20_constructor_panics_witness :
  newProofIterator Z 0 16 [innerNode; rootNode] EmptyPath = Panic.
Proof.
  apply (X20_constructor_panics Z 0 16 innerNode rootNode [] EmptyPath).
  simpl. lia.
Defined.

Lemma X21_exhausted_means_all_before_witness :
  exists it,
    newProofIterator Z 0 16 [rootNode; innerNode] [2] = Ret it
    /\ (exhausted Z it = true ->
        forall j n, [rootNode; innerNode] !! j = Some n ->
          path_Compare [2] (KeyPath Z n) > 0
          /\ forall c, 0 <= c < 16 -> is_Some (Children Z n !! c) ->
               path_Compare [2] (path_Append (KeyPath Z n) c) > 0
               \/ exists next,
                    [rootNode; innerNode] !! S j = Some next
                    /\ nth (length (KeyPath Z n)) (KeyPath Z next) 0 = c).
Proof.
  apply (X21_exhausted_means_all_before Z 0 16 [rootNode; innerNode] [2]).
  - lia.
  - reflexivity.
Defined.
